(** * Chromatic aberration correction with 1D TI / FC filters

    A shallow embedding of [chromatic_aberration_correction.pyx]
    (transpose, grad, sign, clip, ti_and_ca_filtering1D, arbitration and
    correct_chromatic_aberration) and the properties of its specification.

    Numbers.  The source computes on 32-bit floats.  Samples are modelled
    here as exact rationals [Q]: rounding, infinities and NaNs are
    abstracted, comparisons and the min / max / abs primitives keep their
    meaning.  Statements about values are up to [==] (equality of
    rationals) unless the code returns one of its arguments unchanged.

    Memory.  [np.empty] returns a block whose content is whatever the
    allocator left there.  Every block that the source reads before it
    writes is a parameter of the model (records [filter_mem], [arb_mem] and
    [uninit]); blocks that are written before they are read are let-bound
    values.  An allocation is assumed to find the memory it asks for: it
    fails on a negative dimension only.

    Integers.  The half-windows are C [int]s: a Python integer outside the
    range of the type is refused when the call is entered, and
    [LL = 2 * L + 1] wraps around.  Shapes and indices are [Py_ssize_t],
    modelled as [Z]. *)

From Stdlib Require Import ZArith QArith Qabs Qminmax List Bool Lia Lqa.
From Stdlib Require Import Permutation.
Import ListNotations.

Local Open Scope Z_scope.
Local Open Scope Q_scope.

(** ** Floating primitives of libc.math and comparisons *)

Definition fabs (x : Q) : Q := Qabs x.
Definition fmin (x y : Q) : Q := Qmin x y.
Definition fmax (x y : Q) : Q := Qmax x y.

Definition Qltb (x y : Q) : bool :=
  match x ?= y with Lt => true | _ => false end.
Definition Qgtb (x y : Q) : bool := Qltb y x.
Definition Qgeb (x y : Q) : bool := Qle_bool y x.

Infix "<?" := Qltb (at level 70, no associativity) : Q_scope.
Infix ">?" := Qgtb (at level 70, no associativity) : Q_scope.
Infix ">=?" := Qgeb (at level 70, no associativity) : Q_scope.

(** The constant [eps = 1e-8] of ti_and_ca_filtering1D. *)
Definition eps : Q := 1 # 100000000.

(** ** Planes, images and Python ranges *)

(** A 2D array [X[i, j]]; its shape travels separately, as in the source
    where M and N are read from [X.shape]. *)
Definition plane := Z -> Z -> Q.

Definition upd (P : plane) (i j : Z) (v : Q) : plane :=
  fun a b => if ((a =? i)%Z && (b =? j)%Z)%bool then v else P a b.

Definition upd_row (P : plane) (i : Z) (r : Z -> Q) : plane :=
  fun a b => if (a =? i)%Z then r b else P a b.

Definition set_cell (r : Z -> Q) (l : Z) (v : Q) : Z -> Q :=
  fun b => if (b =? l)%Z then v else r b.

Fixpoint zrange (lo : Z) (n : nat) : list Z :=
  match n with
  | O => []
  | S k => lo :: zrange (lo + 1)%Z k
  end.

(** [range(lo, hi, 1)]: empty when [hi <= lo]. *)
Definition range (lo hi : Z) : list Z := zrange lo (Z.to_nat (hi - lo)).

Definition in_range (lo hi x : Z) : bool := ((lo <=? x)%Z && (x <? hi)%Z)%bool.

(** ** transpose *)

(** [Xt[j, i] = X[i, j]] for all [0 <= i < M], [0 <= j < N]. *)
Definition transpose (X : plane) : plane := fun j i => X i j.

(** ** grad *)

(** [grad_X[i, j] = X[i, j] - X[i, j - 1]] for [j] in [range(1, N)];
    column 0 of the output block is never written and keeps the content
    [g0] it was allocated with. *)
Definition grad (X : plane) (M N : Z) (g0 : plane) : plane :=
  fun i j =>
    if (in_range 0 M i && in_range 1 N j)%bool then X i j - X i (j - 1)%Z
    else g0 i j.

(** ** sign *)

Definition sign (input : Q) : Z :=
  if input >? 0 then 1%Z
  else if input <? 0 then (-1)%Z
  else 0%Z.

(** ** clip  (Eq. (9)) *)

Definition clip (K K_ref : Q) : Q :=
  if K_ref >? 0 then fmin K K_ref
  else if K_ref <? 0 then fmax K K_ref
  else K_ref.

(** ** Errors *)

(** The exceptions of a call on a 3-D float32 image and a 1-D float32
    [rho]: the [ValueError] of [np.empty] on a negative dimension, and the
    [OverflowError] of the conversion of a Python integer to a C [int].
    Arrays of another rank or element type are refused by the typed
    signature before the body runs; they are not values of the types
    below. *)
Inductive error : Type :=
| ValueError_negative_dimensions
| OverflowError_int.

Inductive result (A : Type) : Type :=
| Ok (a : A)
| Err (e : error).
Arguments Ok {A} a.
Arguments Err {A} e.

Definition bind {A B : Type} (r : result A) (k : A -> result B) : result B :=
  match r with
  | Ok a => k a
  | Err e => Err e
  end.

Notation "x <- r ;; k" := (bind r (fun x => k))
  (at level 61, r at next level, right associativity).

(** [np.empty(shape)] on a 2D shape whose second dimension is [d]. *)
Definition np_empty_check (d : Z) : result unit :=
  if (d <? 0)%Z then Err ValueError_negative_dimensions else Ok tt.

(** ** C integers *)

(** The C type [int] is 32 bits wide. *)
Definition INT_MIN : Z := -2147483648.
Definition INT_MAX : Z := 2147483647.

(** Arithmetic on [int] wraps around. *)
Definition wrap_int (z : Z) : Z :=
  ((z + 2147483648) mod 4294967296 - 2147483648)%Z.

(** An argument declared [int]: a Python integer outside the range of the
    type raises [OverflowError] when the call is entered. *)
Definition as_int (z : Z) : result Z :=
  if ((INT_MIN <=? z)%Z && (z <=? INT_MAX)%Z)%bool then Ok z
  else Err OverflowError_int.

(** ** ti_and_ca_filtering1D *)

(** The four running extrema [X_Emax[i]], [X_Emin[i]], [X_Wmax[i]],
    [X_Wmin[i]] of one pixel. *)
Record window : Type := {
  X_Emax : Q;
  X_Emin : Q;
  X_Wmax : Q;
  X_Wmin : Q
}.

(** Selection of the best couple (Eq. (3)): the pair (max, min). *)
Definition select_couple (w : window) : Q * Q :=
  if (X_Emax w - X_Wmin w) >=? (X_Wmax w - X_Emin w)
  then (X_Emax w, X_Wmin w)
  else (X_Wmax w, X_Emin w).

(** Content of the blocks that ti_and_ca_filtering1D allocates with
    [np.empty] and reads before writing: column 0 of both gradients and the
    [M x (2L+1)] block [K_TI]; [e_past_rho] is what an unchecked read past
    the end of [rho] returns ([boundscheck(False)]). *)
Record filter_mem : Type := {
  e_grad_X : plane;
  e_grad_G : plane;
  e_K_TI : plane;
  e_past_rho : Q
}.

(** The four output blocks and the [K_TI] work block while the loops run. *)
Record filter_state : Type := {
  K_hor : plane;
  K_TI_hor : plane;
  X_max : plane;
  X_min : plane;
  K_TI : plane
}.

(** Row [i] of [K_TI], the accumulating cell [K_hor[i, j]] and
    [W_K_sum[i]] during the loop over the [2L+1] offsets of one pixel. *)
Record acc : Type := {
  K_TI_row : Z -> Q;
  K_acc : Q;
  W_K_sum : Q
}.

Section Filter1D.

Variables (X_in G_in Y_in : plane) (M N L : Z).
Variables (rho : list Q) (alpha_X tau : Q).
Variable mem : filter_mem.

Definition rho_at (k : nat) : Q := nth k rho (e_past_rho mem).

(** One turn of the loop [for l in range(0, L)] (Eq. (2)). *)
Definition envelope_step (i j : Z) (w : window) (l : Z) : window :=
  {| X_Emax := if X_in i (j + l + 1)%Z >? X_Emax w
               then X_in i (j + l + 1)%Z else X_Emax w;
     X_Emin := if X_in i (j + l + 1)%Z <? X_Emin w
               then X_in i (j + l + 1)%Z else X_Emin w;
     X_Wmax := if X_in i (j - L + l)%Z >? X_Wmax w
               then X_in i (j - L + l)%Z else X_Wmax w;
     X_Wmin := if X_in i (j - L + l)%Z <? X_Wmin w
               then X_in i (j - L + l)%Z else X_Wmin w |}.

Definition envelope (i j : Z) : window :=
  fold_left (envelope_step i j) (range 0 L)
    {| X_Emax := X_in i j; X_Emin := X_in i j;
       X_Wmax := X_in i j; X_Wmin := X_in i j |}.

(** Main TI process for offset [l] (Eqs. (1), (4), (5), (7)): the value
    stored in [K_TI[i, l]]. *)
Definition K_TI_offset (i j : Z) (xmax xmin : Q) (l : Z) : Q :=
  let c := (j + l - L)%Z in
  let X_pf :=
    if X_in i j >? G_in i j
    then rho_at 0 * xmax + rho_at 1 * X_in i c + rho_at 2 * xmin
    else rho_at 0 * xmin + rho_at 1 * X_in i c + rho_at 2 * xmax in
  let X_TImax :=
    if X_in i j >? G_in i j then X_in i c else fmin xmax (G_in i c) in
  let X_TImin :=
    if X_in i j >? G_in i j then fmax xmin (G_in i c) else X_in i c in
  let X_TI :=
    if X_pf >? X_TImax then X_TImax
    else if X_pf <? X_TImin then X_TImin
    else X_pf in
  X_TI - G_in i c.

(** Denominator of the gradients' weight (Eq. (12)). *)
Definition W_K_denominator (grad_X grad_G : plane) (i j l : Z) (k : Q) : Q :=
  fabs (grad_G i (j + l - L)%Z)
  + fmax (fabs (grad_X i (j + l - L)%Z)) (alpha_X * fabs k)
  + fabs (Y_in i j - Y_in i (j + l - L)%Z)
  + eps.

(** Chromaticity sign test (Eq. (11)) against the cell [K_TI[i, L]]. *)
Definition W_K_sign (k_center k : Q) : Q :=
  if ((sign k_center =? sign k)%Z || (fabs k <? tau))%bool then 1 else 0.

(** One turn of the loop [for l in range(0, LL)].  [K_TI[i, L]] is read
    after [K_TI[i, l]] has been stored: for [l < L] it still holds what
    an earlier pixel of the row (or the allocator) left there. *)
Definition offset_step (grad_X grad_G : plane) (i j : Z) (xmax xmin : Q)
    (a : acc) (l : Z) : acc :=
  let K_TI' := set_cell (K_TI_row a) l (K_TI_offset i j xmax xmin l) in
  let W_K := W_K_sign (K_TI' L) (K_TI' l)
             / W_K_denominator grad_X grad_G i j l (K_TI' l) in
  {| K_TI_row := K_TI';
     K_acc := K_acc a + W_K * clip (K_TI' l) (K_TI' L);
     W_K_sum := W_K_sum a + W_K |}.

(** Body of the loop over [j] for row [i]. *)
Definition filter_pixel (grad_X grad_G : plane) (i : Z)
    (s : filter_state) (j : Z) : filter_state :=
  let (xmax, xmin) := select_couple (envelope i j) in
  let a := fold_left (offset_step grad_X grad_G i j xmax xmin)
             (range 0 (2 * L + 1))
             {| K_TI_row := K_TI s i;
                K_acc := K_hor s i j;
                W_K_sum := 0 |} in
  {| K_hor := upd (K_hor s) i j (K_acc a / (W_K_sum a + eps));
     K_TI_hor := upd (K_TI_hor s) i j (K_TI_row a L);
     X_max := upd (X_max s) i j xmax;
     X_min := upd (X_min s) i j xmin;
     K_TI := upd_row (K_TI s) i (K_TI_row a) |}.

Definition filter_row (grad_X grad_G : plane)
    (s : filter_state) (i : Z) : filter_state :=
  fold_left (filter_pixel grad_X grad_G i) (range L (N - L)) s.

(** [K_hor0], [K_TI_hor0], [X_max0], [X_min0] are the output blocks as
    the caller allocated them.  [L] is a C [int] and so is
    [LL = 2 * L + 1], which wraps around for [L >= 2^30]; the work blocks
    are allocated with [LL] columns.  (For [L < -2^30] the source indexes
    outside its arrays: nothing is stated about those runs.) *)
Definition ti_and_ca_filtering1D (K_hor0 K_TI_hor0 X_max0 X_min0 : plane)
    : result filter_state :=
  let grad_X := grad X_in M N (e_grad_X mem) in
  let grad_G := grad G_in M N (e_grad_G mem) in
  let LL := wrap_int (2 * L + 1) in
  _ <- np_empty_check LL ;;
  Ok (fold_left (filter_row grad_X grad_G) (range L (M - L))
        {| K_hor := K_hor0; K_TI_hor := K_TI_hor0;
           X_max := X_max0; X_min := X_min0;
           K_TI := e_K_TI mem |}).

End Filter1D.

(** ** arbitration *)

(** Content of the [np.empty] blocks [X_contrast_hor] and [X_contrast_ver],
    of which only the interior is written. *)
Record arb_mem : Type := {
  e_contrast_hor : plane;
  e_contrast_ver : plane
}.

Section Arbitration.

Variables (K K_TI_in X G X_max_in X_min_in : plane).
Variables (beta_X : Q) (L_hor L_ver : Z) (gamma_1 gamma_2 : Q).
Variables (M N : Z).
Variable mem : arb_mem.

(** Horizontal pass, one turn of [for l in range(0, L)] (Eq. (19)). *)
Definition contrast_hor_step (X G : plane) (L i j : Z) (w : window) (l : Z)
    : window :=
  {| X_Emax :=
       if (X i (j + l)%Z - beta_X * fabs (X i (j + l)%Z - G i (j + l)%Z))
          >? X_Emax w
       then X i (j + l)%Z - beta_X * fabs (X i (j + l)%Z - G i (j + l)%Z)
       else X_Emax w;
     X_Emin :=
       if (X i (j + l)%Z + beta_X * fabs (X i (j + l)%Z - G i (L + l)%Z))
          <? X_Emin w
       then X i (j + l)%Z + beta_X * fabs (X i (j + l)%Z - G i (j + l)%Z)
       else X_Emin w;
     X_Wmax :=
       if (X i (j - L + l + 1)%Z
           - beta_X * fabs (X i (j - L + l + 1)%Z - G i (j - L + l + 1)%Z))
          >? X_Wmax w
       then X i (j - L + l + 1)%Z
            - beta_X * fabs (X i (j - L + l + 1)%Z - G i (j - L + l + 1)%Z)
       else X_Wmax w;
     X_Wmin :=
       if (X i (j - L + l + 1)%Z
           + beta_X * fabs (X i (j - L + l + 1)%Z - G i (j - L + l + 1)%Z))
          <? X_Wmin w
       then X i (j - L + l + 1)%Z
            + beta_X * fabs (X i (j - L + l + 1)%Z - G i (j - L + l + 1)%Z)
       else X_Wmin w |}.

(** Horizontal pass, body of the loop over [j]: the value stored in
    [X_contrast_hor[i, j]]. *)
Definition contrast_hor_pixel (X G : plane) (L i j : Z) : Q :=
  let w := fold_left (contrast_hor_step X G L i j) (range 0 L)
             {| X_Emax := X i j; X_Emin := X i j;
                X_Wmax := X i j; X_Wmin := X i j |} in
  let (Xp_max, Xp_min) := select_couple w in
  Xp_max - Xp_min.

(** Vertical pass, one turn of [for l in range(0, L)], on the transposed
    planes. *)
Definition contrast_ver_step (Xt Gt : plane) (L i j : Z) (w : window) (l : Z)
    : window :=
  {| X_Emax :=
       if (Xt i (j + l + 1)%Z
           - beta_X * fabs (Xt i (j + l + 1)%Z - Gt i (j + l + 1)%Z))
          >? X_Emax w
       then Xt i (j + l + 1)%Z
            - beta_X * fabs (Xt i (j + l + 1)%Z - Gt i (j + l + 1)%Z)
       else X_Emax w;
     X_Emin :=
       if (Xt i (j + l + 1)%Z
           + beta_X * fabs (Xt i (j + l + 1)%Z - Gt i (j + l + 1)%Z))
          <? X_Emin w
       then Xt i (j + l + 1)%Z
            + beta_X * fabs (Xt i (j + l)%Z + 1 - Gt i (j + l + 1)%Z)
       else X_Emin w;
     X_Wmax :=
       if (Xt i (j - L + l)%Z
           - beta_X * fabs (Xt i (j - L + l)%Z - Gt i (j - L + l)%Z))
          >? X_Wmax w
       then Xt i (j - L + l)%Z
            - beta_X * fabs (Xt i (j - L + l)%Z - Gt i (j - L + l)%Z)
       else X_Wmax w;
     X_Wmin :=
       if (Xt i (j - L + l)%Z
           + beta_X * fabs (Xt i (j - L + l)%Z - Gt i (j - L + l)%Z))
          <? X_Wmin w
       then Xt i (j - L + l)%Z
            + beta_X * fabs (Xt i (j - L + l)%Z - Gt i (j - L + l)%Z)
       else X_Wmin w |}.

(** Vertical pass, body of the loop over [j]: the value stored in
    [X_contrast_ver[i, j]] (shape [(N, M)]). *)
Definition contrast_ver_pixel (Xt Gt : plane) (L i j : Z) : Q :=
  let w := fold_left (contrast_ver_step Xt Gt L i j) (range 0 L)
             {| X_Emax := Xt i j; X_Emin := Xt i j;
                X_Wmax := Xt i j; X_Wmin := Xt i j |} in
  let (Xp_max, Xp_min) := select_couple w in
  Xp_max - Xp_min.

(** The block [X_contrast_hor] after the horizontal loops: each turn
    writes its own cell from read-only planes. *)
Definition X_contrast_hor : plane :=
  fun i j =>
    if (in_range L_hor (M - L_hor) i && in_range L_hor (N - L_hor) j)%bool
    then contrast_hor_pixel X G L_hor i j
    else e_contrast_hor mem i j.

(** The block [X_contrast_ver], of shape [(N, M)], before it is
    transposed. *)
Definition X_contrast_ver : plane :=
  fun i j =>
    if (in_range L_ver (N - L_ver) i && in_range L_ver (M - L_ver) j)%bool
    then contrast_ver_pixel (transpose X) (transpose G) L_ver i j
    else e_contrast_ver mem i j.

(** Eq. (21).  [X_contrast] aliases the transposed [X_contrast_ver]; a
    turn reads and writes the one cell [i, j]. *)
Definition X_contrast : plane :=
  fun i j =>
    if X_contrast_hor i j >? transpose X_contrast_ver i j
    then X_contrast_hor i j
    else transpose X_contrast_ver i j.

(** Denominator of the arbitration weight (Eq. (22)). *)
Definition alpha_K_denominator (xmax xmin : Q) : Q :=
  fmin (fmax (xmax - xmin) gamma_2) gamma_1.

Definition alpha_K (contrast xmax xmin : Q) : Q :=
  fmin (fmax contrast 0 / alpha_K_denominator xmax xmin) 1.

(** The output block [K_out] (Eq. (17)); every cell of [(M, N)] is
    written. *)
Definition arbitration : plane :=
  fun i j =>
    let a := alpha_K (X_contrast i j) (X_max_in i j) (X_min_in i j) in
    (1 - a) * K_TI_in i j + a * K i j.

End Arbitration.

(** ** correct_chromatic_aberration *)

(** A 3D array with its shape; [pix] is total, an index outside the shape
    reads whatever lies there. *)
Record image : Type := {
  shape0 : Z;
  shape1 : Z;
  shape2 : Z;
  pix : Z -> Z -> Z -> Q
}.

(** Content of the four output blocks handed to one call of
    ti_and_ca_filtering1D, and of the blocks that call allocates. *)
Record call_mem : Type := {
  o_K : plane;
  o_K_TI : plane;
  o_max : plane;
  o_min : plane;
  scratch : filter_mem
}.

(** Everything [np.empty] returned during one run. *)
Record uninit : Type := {
  u_r_hor : call_mem;
  u_b_hor : call_mem;
  u_r_ver : call_mem;
  u_b_ver : call_mem;
  u_arb_r : arb_mem;
  u_arb_b : arb_mem
}.

(** Eqs. (16) and (18): the merged block aliases the vertical one and is
    overwritten where the horizontal value of [sel] is smaller in
    magnitude. *)
Definition merge (sel_hor sel_ver P_hor P_ver : plane) : plane :=
  fun i j =>
    if fabs (sel_hor i j) <? fabs (sel_ver i j) then P_hor i j else P_ver i j.

Definition run_filter (X_in G_in Y_in : plane) (M N L : Z) (rho : list Q)
    (alpha_X tau : Q) (m : call_mem) : result filter_state :=
  ti_and_ca_filtering1D X_in G_in Y_in M N L rho alpha_X tau (scratch m)
    (o_K m) (o_K_TI m) (o_max m) (o_min m).

(** The planes [K_rout] and [K_bout] of correct_chromatic_aberration: its
    body from the channel split down to the contrast arbitration, once
    the half-windows have been converted to C [int]s. *)
Definition arbitrated_chroma (I_in : image) (L_hor L_ver : Z)
    (rho : list Q) (tau alpha_R alpha_B beta_R beta_B gamma_1 gamma_2 : Q)
    (u : uninit) : result (plane * plane) :=
  let M := shape0 I_in in
  let N := shape1 I_in in
  let R_in : plane := fun i j => pix I_in i j 0 in
  let G_in : plane := fun i j => pix I_in i j 1 in
  let B_in : plane := fun i j => pix I_in i j 2 in
  let Y_in : plane := fun i j =>
    (299 # 1000) * R_in i j + (587 # 1000) * G_in i j
    + (114 # 1000) * B_in i j in
  (* Horizontal pass *)
  r_hor <- run_filter R_in G_in Y_in M N L_hor rho alpha_R tau (u_r_hor u) ;;
  b_hor <- run_filter B_in G_in Y_in M N L_hor rho alpha_B tau (u_b_hor u) ;;
  (* Vertical pass *)
  r_ver <- run_filter (transpose R_in) (transpose G_in) (transpose Y_in)
             N M L_ver rho alpha_R tau (u_r_ver u) ;;
  b_ver <- run_filter (transpose B_in) (transpose G_in) (transpose Y_in)
             N M L_ver rho alpha_B tau (u_b_ver u) ;;
  let K_r_ver := transpose (K_hor r_ver) in
  let K_b_ver := transpose (K_hor b_ver) in
  let K_rTI_ver := transpose (K_TI_hor r_ver) in
  let K_bTI_ver := transpose (K_TI_hor b_ver) in
  let R_max_ver := transpose (X_max r_ver) in
  let B_max_ver := transpose (X_max b_ver) in
  let R_min_ver := transpose (X_min r_ver) in
  let B_min_ver := transpose (X_min b_ver) in
  (* Arbitration *)
  let K_b := merge (K_hor b_hor) K_b_ver (K_hor b_hor) K_b_ver in
  let K_r := merge (K_hor r_hor) K_r_ver (K_hor r_hor) K_r_ver in
  let K_bTI := merge (K_TI_hor b_hor) K_bTI_ver (K_TI_hor b_hor) K_bTI_ver in
  let B_max := merge (K_TI_hor b_hor) K_bTI_ver (X_max b_hor) B_max_ver in
  let B_min := merge (K_TI_hor b_hor) K_bTI_ver (X_min b_hor) B_min_ver in
  let K_rTI := merge (K_TI_hor r_hor) K_rTI_ver (K_TI_hor r_hor) K_rTI_ver in
  let R_max := merge (K_TI_hor r_hor) K_rTI_ver (X_max r_hor) R_max_ver in
  let R_min := merge (K_TI_hor r_hor) K_rTI_ver (X_min r_hor) R_min_ver in
  let K_rout := arbitration K_r K_rTI R_in G_in R_max R_min beta_R
                  L_hor L_ver gamma_1 gamma_2 M N (u_arb_r u) in
  let K_bout := arbitration K_b K_bTI B_in G_in B_max B_min beta_B
                  L_hor L_ver gamma_1 gamma_2 M N (u_arb_b u) in
  Ok (K_rout, K_bout).

Definition correct_chromatic_aberration (I_in : image) (L_hor L_ver : Z)
    (rho : list Q) (tau alpha_R alpha_B beta_R beta_B gamma_1 gamma_2 : Q)
    (u : uninit) : result image :=
  _ <- as_int L_hor ;;
  _ <- as_int L_ver ;;
  let M := shape0 I_in in
  let N := shape1 I_in in
  let G_in : plane := fun i j => pix I_in i j 1 in
  K_out <- arbitrated_chroma I_in L_hor L_ver rho tau alpha_R alpha_B
             beta_R beta_B gamma_1 gamma_2 u ;;
  (* Final RGB conversion (Eq. (24)) *)
  Ok {| shape0 := M; shape1 := N; shape2 := 3;
        pix := fun i j c =>
          if (c =? 0)%Z then fst K_out i j + G_in i j
          else if (c =? 1)%Z then G_in i j
          else snd K_out i j + G_in i j |}.

(** ** Reference formulas of the specification *)

(** [clamp(x, lo, hi)]: floor at [lo], cap at [hi]. *)
Definition clamp (x lo hi : Q) : Q := fmin (fmax x lo) hi.

(** Blend weight of the specification:
    [clamp(max(contrast, 0) / clamp(X_max - X_min, gamma_2, gamma_1), 0, 1)]. *)
Definition alpha_reference (gamma_1 gamma_2 contrast xmax xmin : Q) : Q :=
  clamp (fmax contrast 0 / clamp (xmax - xmin) gamma_2 gamma_1) 0 1.

Definition Qsum (l : list Q) : Q := fold_right Qplus 0 l.

(** FC output of the specification for pixel [(i, j)]: with [k l] the TI
    chroma of offset [l] and [k L] the one of the window center,
    [sum_l weight_l * clip(k l, k L) / (sum_l weight_l + eps)], both sums
    starting from zero. *)
Definition FC_reference (X_in G_in Y_in : plane) (M N L : Z) (rho : list Q)
    (alpha_X tau : Q) (mem : filter_mem) (i j : Z) : Q :=
  let grad_X := grad X_in M N (e_grad_X mem) in
  let grad_G := grad G_in M N (e_grad_G mem) in
  let (xmax, xmin) := select_couple (envelope X_in L i j) in
  let k l := K_TI_offset X_in G_in L rho mem i j xmax xmin l in
  let weight l :=
    W_K_sign tau (k L) (k l)
    / W_K_denominator Y_in L alpha_X grad_X grad_G i j l (k l) in
  Qsum (map (fun l => weight l * clip (k l) (k L)) (range 0 (2 * L + 1)))
  / (Qsum (map weight (range 0 (2 * L + 1))) + eps).

(** Biased contrast of the specification for pixel [(i, j)]: East
    half-window [[j+1, j+L]] and West half-window [[j-L, j-1]], each with
    the center, maxima over [X - beta |X - G|], minima over
    [X + beta |X - G|], pairing rule of Eq. (3).  The center is taken on
    the same adjusted signal; where [X = G] the adjustment vanishes. *)
Definition contrast_reference (beta_X : Q) (X G : plane) (L i j : Z) : Q :=
  let lo c := X i c - beta_X * fabs (X i c - G i c) in
  let hi c := X i c + beta_X * fabs (X i c - G i c) in
  let East := range (j + 1) (j + L + 1) in
  let West := range (j - L) j in
  let w := {| X_Emax := fold_left fmax (map lo East) (lo j);
              X_Emin := fold_left fmin (map hi East) (hi j);
              X_Wmax := fold_left fmax (map lo West) (lo j);
              X_Wmin := fold_left fmin (map hi West) (hi j) |} in
  let (Xp_max, Xp_min) := select_couple w in
  Xp_max - Xp_min.


(** ** Sample inputs *)

(** A plane given by its rows. *)
Definition plane_of (rows : list (list Q)) : plane :=
  fun i j =>
    if ((0 <=? i)%Z && (0 <=? j)%Z)%bool
    then nth (Z.to_nat j) (nth (Z.to_nat i) rows []) 0
    else 0.

Definition zeros : plane := fun _ _ => 0.
Definition ones : plane := fun _ _ => 1.

(** An image whose three channels are the plane [p]. *)
Definition gray_image (p : plane) (M N : Z) : image :=
  {| shape0 := M; shape1 := N; shape2 := 3; pix := fun i j _ => p i j |}.

Definition image_of (R G B : plane) (M N : Z) : image :=
  {| shape0 := M; shape1 := N; shape2 := 3;
     pix := fun i j c =>
       if (c =? 0)%Z then R i j else if (c =? 1)%Z then G i j else B i j |}.

(** Blocks in which the allocator left zeros everywhere. *)
Definition zero_filter_mem : filter_mem :=
  {| e_grad_X := zeros; e_grad_G := zeros; e_K_TI := zeros; e_past_rho := 0 |}.

Definition zero_arb_mem : arb_mem :=
  {| e_contrast_hor := zeros; e_contrast_ver := zeros |}.

(** Blocks that hold zeros except the output block [K_hor], which holds
    [k0]. *)
Definition call_mem_with (k0 : plane) : call_mem :=
  {| o_K := k0; o_K_TI := zeros; o_max := zeros; o_min := zeros;
     scratch := zero_filter_mem |}.

Definition uninit_with (k0 : plane) : uninit :=
  {| u_r_hor := call_mem_with k0; u_b_hor := call_mem_with k0;
     u_r_ver := call_mem_with k0; u_b_ver := call_mem_with k0;
     u_arb_r := zero_arb_mem; u_arb_b := zero_arb_mem |}.

(** The parameters of the reference article: [rho = (-1/4, 3/2, -1/4)],
    [tau = 0.15], [alpha = 0.5], [beta = 1], [gamma_1 = 0.03],
    [gamma_2 = 0.01]. *)
Definition rho_default : list Q := [-1 # 4; 3 # 2; -1 # 4].
Definition tau_default : Q := 15 # 100.
Definition alpha_default : Q := 1 # 2.
Definition beta_default : Q := 1.
Definition gamma_1_default : Q := 3 # 100.
Definition gamma_2_default : Q := 1 # 100.

(** A 3 x 3 gray ramp. *)
Definition ramp3 : plane := plane_of [[0; 0; 0]; [1; 1 # 2; 0]; [0; 1; 1]].

(** A 3 x 4 red plane that is flat and a green plane with one bright
    sample. *)
Definition flat34 : plane := plane_of [[0; 0; 0; 0]; [0; 0; 0; 0]; [0; 0; 0; 0]].
Definition spot34 : plane := plane_of [[0; 0; 0; 0]; [0; 1; 0; 0]; [0; 0; 0; 0]].
Definition luma (R G B : plane) : plane :=
  fun i j => (299 # 1000) * R i j + (587 # 1000) * G i j + (114 # 1000) * B i j.

(** A 3 x 3 plane with a step to the East of the center. *)
Definition step3 : plane := plane_of [[0; 0; 0]; [0; 0; 1]; [0; 0; 0]].

(** A 3 x 3 plane whose first row is bright. *)
Definition top3 : plane := plane_of [[1; 1; 1]; [0; 0; 0]; [0; 0; 0]].

(** ** Leftovers that are not numbers *)

(** A float32 cell that [np.empty] left behind may hold a bit pattern
    that is not a number. *)
Inductive float_val : Type :=
| Finite (q : Q)
| NaN.

Definition f_abs (v : float_val) : float_val :=
  match v with
  | Finite q => Finite (fabs q)
  | NaN => NaN
  end.

Definition f_add (v w : float_val) : float_val :=
  match v, w with
  | Finite a, Finite b => Finite (a + b)
  | _, _ => NaN
  end.

(** [fmax] of libc ignores an argument that is not a number. *)
Definition f_max (v w : float_val) : float_val :=
  match v, w with
  | Finite a, Finite b => Finite (fmax a b)
  | NaN, _ => w
  | _, NaN => v
  end.

(** The denominator of the gradients' weight (Eq. (12)) when the two
    gradient cells it reads are leftovers: [g_G] and [g_X] stand for
    [grad_G[i, j + l - L]] and [grad_X[i, j + l - L]], [alpha_k] for
    [alpha_X * fabs(K_TI[i, l])] and [dY] for
    [Y_in[i, j] - Y_in[i, j + l - L]]. *)
Definition W_K_denominator_leftover (g_G g_X : float_val) (alpha_k dY : Q)
    : float_val :=
  f_add
    (f_add
       (f_add (f_abs g_G) (f_max (f_abs g_X) (Finite alpha_k)))
       (Finite (fabs dY)))
    (Finite eps).

(** ** Predicates on the state of ti_and_ca_filtering1D *)

(** Cell [(i, j)] of the output blocks holds what the turn [(i, j)] of the
    loops stores there: the selected couple and the TI chroma of the
    window center. *)
Definition pixel_done (X_in G_in : plane) (L : Z) (rho : list Q)
    (mem : filter_mem) (s : filter_state) (i j : Z) : Prop :=
  let sc := select_couple (envelope X_in L i j) in
  X_max s i j = fst sc
  /\ X_min s i j = snd sc
  /\ K_TI_hor s i j = K_TI_offset X_in G_in L rho mem i j (fst sc) (snd sc) L.

(** The chroma blocks hold zeros: [K_hor], [K_TI_hor] and the center
    column [L] of the work block [K_TI]. *)
Definition zero_chroma (L : Z) (s : filter_state) : Prop :=
  (forall i j, K_hor s i j == 0)
  /\ (forall i j, K_TI_hor s i j == 0)
  /\ (forall i, K_TI s i L == 0).

(** The allocator handed out zero-filled chroma blocks for one call. *)
Definition zero_call_mem (m : call_mem) : Prop :=
  (forall i j, o_K m i j == 0)
  /\ (forall i j, o_K_TI m i j == 0)
  /\ (forall i j, e_K_TI (scratch m) i j == 0).

Definition zero_blocks (u : uninit) : Prop :=
  zero_call_mem (u_r_hor u) /\ zero_call_mem (u_b_hor u)
  /\ zero_call_mem (u_r_ver u) /\ zero_call_mem (u_b_ver u).

(** Every block that [np.empty] handed out for one call, and for one run,
    holds zeros. *)
Definition all_zero_call_mem (m : call_mem) : Prop :=
  zero_call_mem m
  /\ (forall i j, o_max m i j == 0)
  /\ (forall i j, o_min m i j == 0)
  /\ (forall i j, e_grad_X (scratch m) i j == 0)
  /\ (forall i j, e_grad_G (scratch m) i j == 0).

Definition all_zero_arb_mem (m : arb_mem) : Prop :=
  (forall i j, e_contrast_hor m i j == 0)
  /\ (forall i j, e_contrast_ver m i j == 0).

Definition all_blocks_zero (u : uninit) : Prop :=
  all_zero_call_mem (u_r_hor u) /\ all_zero_call_mem (u_b_hor u)
  /\ all_zero_call_mem (u_r_ver u) /\ all_zero_call_mem (u_b_ver u)
  /\ all_zero_arb_mem (u_arb_r u) /\ all_zero_arb_mem (u_arb_b u).

(** The three channels of the image are pixel-wise identical. *)
Definition gray (I_in : image) : Prop :=
  forall i j, pix I_in i j 0 = pix I_in i j 1 /\ pix I_in i j 2 = pix I_in i j 1.

(** Two states of ti_and_ca_filtering1D hold the same values in row [i]
    of the five blocks, and in every row. *)
Definition row_agree (i : Z) (s1 s2 : filter_state) : Prop :=
  forall b,
    K_hor s1 i b = K_hor s2 i b
    /\ K_TI_hor s1 i b = K_TI_hor s2 i b
    /\ X_max s1 i b = X_max s2 i b
    /\ X_min s1 i b = X_min s2 i b
    /\ K_TI s1 i b = K_TI s2 i b.

Definition state_eq (s1 s2 : filter_state) : Prop :=
  forall i, row_agree i s1 s2.

(** Two states of the loop over the offsets hold the same values. *)
Definition acc_agree (a1 a2 : acc) : Prop :=
  (forall b, K_TI_row a1 b = K_TI_row a2 b)
  /\ K_acc a1 = K_acc a2
  /\ W_K_sum a1 = W_K_sum a2.

(** ** Basic facts on the comparisons *)

Lemma Qltb_lt (x y : Q) : (x <? y) = true <-> x < y.
Proof.
  unfold Qltb. rewrite Qlt_alt.
  destruct (x ?= y); split; intro H; try reflexivity; try discriminate.
Qed.

Lemma Qltb_ge (x y : Q) : (x <? y) = false <-> y <= x.
Proof.
  split; intro H.
  - apply Qnot_lt_le. intro Hlt. apply Qltb_lt in Hlt. congruence.
  - destruct (x <? y) eqn:E; [|reflexivity].
    apply Qltb_lt in E. exfalso. apply (Qlt_not_le _ _ E H).
Qed.

Lemma Qgtb_gt (x y : Q) : (x >? y) = true <-> y < x.
Proof. unfold Qgtb. apply Qltb_lt. Qed.

Lemma Qgtb_le (x y : Q) : (x >? y) = false <-> x <= y.
Proof. unfold Qgtb. apply Qltb_ge. Qed.

Lemma Qgeb_ge (x y : Q) : (x >=? y) = true <-> y <= x.
Proof. unfold Qgeb. apply Qle_bool_iff. Qed.

Lemma fmin_cases (x y : Q) : (x <= y /\ fmin x y = x) \/ (y < x /\ fmin x y = y).
Proof.
  unfold fmin. destruct (Q.min_spec x y) as [[H E]|[H E]].
  - left. split; [apply Qlt_le_weak; exact H|].
    unfold Qmin, GenericMinMax.gmin in *.
    destruct (x ?= y) eqn:C; try reflexivity.
    apply Qgt_alt in C. exfalso. apply (Qlt_irrefl x). eapply Qlt_trans; eassumption.
  - destruct (Qeq_dec x y) as [Heq|Hne].
    + left. split; [rewrite Heq; apply Qle_refl|].
      unfold Qmin, GenericMinMax.gmin.
      apply Qeq_alt in Heq. rewrite Heq. reflexivity.
    + right. split.
      * apply Qnot_le_lt. intro Hle. apply Hne. apply Qle_antisym; assumption.
      * unfold Qmin, GenericMinMax.gmin.
        destruct (x ?= y) eqn:C; try reflexivity.
        -- apply Qeq_alt in C. contradiction.
        -- apply Qlt_alt in C. exfalso. apply (Qlt_not_le _ _ C H).
Qed.

Lemma fmax_cases (x y : Q) : (y <= x /\ fmax x y = x) \/ (x < y /\ fmax x y = y).
Proof.
  unfold fmax, Qmax, GenericMinMax.gmax.
  destruct (x ?= y) eqn:C.
  - left. apply Qeq_alt in C. split; [rewrite C; apply Qle_refl | reflexivity].
  - right. apply Qlt_alt in C. split; [exact C | reflexivity].
  - left. apply Qgt_alt in C. split; [apply Qlt_le_weak; exact C | reflexivity].
Qed.

Lemma Qgeb_lt (x y : Q) : (x >=? y) = false <-> x < y.
Proof.
  split; intro H.
  - apply Qnot_le_lt. intro Hle. apply Qgeb_ge in Hle. congruence.
  - destruct (x >=? y) eqn:E; [|reflexivity].
    apply Qgeb_ge in E. exfalso. apply (Qlt_not_le _ _ H E).
Qed.

Lemma fabs_nonneg (x : Q) : 0 <= fabs x.
Proof. apply Qabs_nonneg. Qed.

Lemma eps_pos : 0 < eps.
Proof. reflexivity. Qed.

Ltac case_cmp :=
  match goal with
  | |- context [?a >? ?b] =>
      let E := fresh "E" in
      destruct (a >? b) eqn:E;
      [apply Qgtb_gt in E | apply Qgtb_le in E]
  | |- context [?a <? ?b] =>
      let E := fresh "E" in
      destruct (a <? b) eqn:E;
      [apply Qltb_lt in E | apply Qltb_ge in E]
  | |- context [?a >=? ?b] =>
      let E := fresh "E" in
      destruct (a >=? b) eqn:E;
      [apply Qgeb_ge in E | apply Qgeb_lt in E]
  end.

Ltac case_fmin a b :=
  let H := fresh "Hm" in let E := fresh "Em" in
  destruct (fmin_cases a b) as [[H E]|[H E]]; rewrite ?E in *.

Ltac case_fmax a b :=
  let H := fresh "Hm" in let E := fresh "Em" in
  destruct (fmax_cases a b) as [[H E]|[H E]]; rewrite ?E in *.

(** ** Ranges and loops *)

Lemma In_zrange (n : nat) : forall lo x,
  In x (zrange lo n) <-> (lo <= x < lo + Z.of_nat n)%Z.
Proof.
  induction n as [|n IH]; intros lo x; simpl.
  - split; [tauto | lia].
  - rewrite IH. split; intro H.
    + destruct H as [H|H]; lia.
    + destruct (Z.eq_dec lo x) as [->|Hne]; [left; reflexivity | right; lia].
Qed.

Lemma In_range (lo hi x : Z) : In x (range lo hi) <-> (lo <= x < hi)%Z.
Proof. unfold range. rewrite In_zrange. lia. Qed.

Section Loops.

Context {S : Type}.
Variable f : S -> Z -> S.
Variable P : S -> Prop.

(** A property kept by every turn of a loop holds when the loop ends. *)
Lemma loop_invariant (l : list Z) :
  (forall s a, In a l -> P s -> P (f s a)) ->
  forall s, P s -> P (fold_left f l s).
Proof.
  induction l as [|a l IH]; intros Hstep s Hs; simpl; [exact Hs|].
  apply IH.
  - intros s' a' Hin. apply Hstep. right. exact Hin.
  - apply Hstep; [left; reflexivity | exact Hs].
Qed.

(** A property set up by turn [k] and kept by the other turns holds when
    the loop ends, whatever the state it started from. *)
Lemma loop_last_write (k : Z) (l : list Z) :
  In k l ->
  (forall s, P (f s k)) ->
  (forall s a, a <> k -> P s -> P (f s a)) ->
  forall s, P (fold_left f l s).
Proof.
  intros Hin Hk Hother.
  assert (Hkeep : forall l' s, P s -> P (fold_left f l' s)).
  { intros l'. induction l' as [|a l' IH]; intros s Hs; simpl; [exact Hs|].
    apply IH. destruct (Z.eq_dec a k) as [->|Hne]; [apply Hk | apply Hother; assumption]. }
  induction l as [|a l IH]; [contradiction|].
  intros s. simpl. destruct Hin as [->|Hin].
  - apply Hkeep. apply Hk.
  - apply IH. exact Hin.
Qed.

End Loops.

(** ** clip *)

(** C8.  clip is idempotent in its first argument, [clip(clip(K, K_ref),
    K_ref) = clip(K, K_ref)] for all [K] and [K_ref], and [clip(K, 0) = 0]
    for all [K]. *)
Theorem clip_idempotent (K K_ref : Q) :
  clip (clip K K_ref) K_ref = clip K K_ref /\ clip K 0 = 0.
Proof.
  split; [|reflexivity].
  unfold clip.
  destruct (K_ref >? 0) eqn:Hpos.
  - case_fmin K K_ref.
    + case_fmin K K_ref; [reflexivity | lra].
    + case_fmin K_ref K_ref; reflexivity.
  - destruct (K_ref <? 0) eqn:Hneg; [|reflexivity].
    case_fmax K K_ref.
    + case_fmax K K_ref; [reflexivity | lra].
    + case_fmax K_ref K_ref; reflexivity.
Qed.

Lemma clip_zero_ref (K K_ref : Q) : K_ref == 0 -> clip K K_ref == 0.
Proof.
  intro H. unfold clip.
  repeat case_cmp; try lra.
Qed.

(** ** Divisions *)

Lemma Qdiv_nonneg (a b : Q) : 0 <= a -> 0 < b -> 0 <= a / b.
Proof.
  intros Ha Hb. apply Qle_shift_div_l; [exact Hb|]. lra.
Qed.

Lemma W_K_sign_range (tau kc k : Q) : 0 <= W_K_sign tau kc k <= 1.
Proof.
  unfold W_K_sign.
  destruct ((sign kc =? sign k)%Z || (fabs k <? tau))%bool; lra.
Qed.

Lemma W_K_denominator_pos (Y_in : plane) (L : Z) (alpha_X : Q)
    (grad_X grad_G : plane) (i j l : Z) (k : Q) :
  0 < W_K_denominator Y_in L alpha_X grad_X grad_G i j l k.
Proof.
  unfold W_K_denominator.
  pose proof (fabs_nonneg (grad_G i (j + l - L)%Z)) as H1.
  pose proof (fabs_nonneg (grad_X i (j + l - L)%Z)) as H2.
  pose proof (fabs_nonneg (Y_in i j - Y_in i (j + l - L)%Z)) as H3.
  pose proof eps_pos as H4.
  case_fmax (fabs (grad_X i (j + l - L)%Z)) (alpha_X * fabs k); lra.
Qed.

Lemma offset_step_W_K_sum (X_in G_in Y_in : plane) (L : Z) (rho : list Q)
    (alpha_X tau : Q) (mem : filter_mem) (grad_X grad_G : plane) (i j : Z)
    (xmax xmin : Q) (a : acc) (l : Z) :
  0 <= W_K_sum a ->
  0 <= W_K_sum (offset_step X_in G_in Y_in L rho alpha_X tau mem
                  grad_X grad_G i j xmax xmin a l).
Proof.
  intro Ha. unfold offset_step. cbn [W_K_sum].
  match goal with |- 0 <= _ + ?n / ?d => 
    assert (Hq : 0 <= n / d)
      by (apply Qdiv_nonneg; [apply W_K_sign_range | apply W_K_denominator_pos])
  end.
  lra.
Qed.

Lemma alpha_K_denominator_pos (gamma_1 gamma_2 xmax xmin : Q) :
  0 < gamma_2 -> gamma_2 <= gamma_1 ->
  0 < alpha_K_denominator gamma_1 gamma_2 xmax xmin.
Proof.
  intros H2 H1. unfold alpha_K_denominator.
  case_fmax (xmax - xmin) gamma_2;
    match goal with |- 0 < fmin ?a ?b => case_fmin a b end; lra.
Qed.

(** X25.  When the cells it reads hold numbers (rationals here), with
    [gamma_1 >= gamma_2 > 0], every division of the FC stage and of the
    arbitration weight has a strictly positive denominator: the
    denominator of each gradient weight, the weight sum plus epsilon that
    divides the accumulated [K_hor[i, j]], and the clamped envelope range
    that divides the contrast. *)
Theorem denominators_positive (gamma_1 gamma_2 : Q) :
  0 < gamma_2 -> gamma_2 <= gamma_1 ->
  (forall Y_in L alpha_X grad_X grad_G i j l k,
     0 < W_K_denominator Y_in L alpha_X grad_X grad_G i j l k)
  /\ (forall X_in G_in Y_in L rho alpha_X tau mem grad_X grad_G i j
        xmax xmin row k0,
        0 < W_K_sum
              (fold_left
                 (offset_step X_in G_in Y_in L rho alpha_X tau mem
                    grad_X grad_G i j xmax xmin)
                 (range 0 (2 * L + 1))
                 {| K_TI_row := row; K_acc := k0; W_K_sum := 0 |})
            + eps)
  /\ (forall xmax xmin, 0 < alpha_K_denominator gamma_1 gamma_2 xmax xmin).
Proof.
  intros H2 H1. split; [|split].
  - intros. apply W_K_denominator_pos.
  - intros.
    match goal with |- 0 < W_K_sum (fold_left ?f ?l ?s) + eps =>
      assert (Hs : 0 <= W_K_sum (fold_left f l s))
    end.
    { apply (loop_invariant _ (fun a => 0 <= W_K_sum a)).
      - intros s a _ Hs. apply offset_step_W_K_sum. exact Hs.
      - cbn. lra. }
    pose proof eps_pos. lra.
  - intros. apply alpha_K_denominator_pos; assumption.
Qed.

Lemma denominators_positive_witness :
  (forall Y_in L alpha_X grad_X grad_G i j l k,
     0 < W_K_denominator Y_in L alpha_X grad_X grad_G i j l k)
  /\ (forall X_in G_in Y_in L rho alpha_X tau mem grad_X grad_G i j
        xmax xmin row k0,
        0 < W_K_sum
              (fold_left
                 (offset_step X_in G_in Y_in L rho alpha_X tau mem
                    grad_X grad_G i j xmax xmin)
                 (range 0 (2 * L + 1))
                 {| K_TI_row := row; K_acc := k0; W_K_sum := 0 |})
            + eps)
  /\ (forall xmax xmin,
        0 < alpha_K_denominator gamma_1_default gamma_2_default xmax xmin).
Proof.
  apply (denominators_positive gamma_1_default gamma_2_default).
  - reflexivity.
  - unfold Qle; simpl; lia.
Defined.

(** C9, evaluated.  The denominator of the gradients' weight of the first
    covered pixel of a row ([j = L], offset [l = 0]) reads column 0 of
    [grad_G] and [grad_X], which grad never writes: it is computed from
    what [np.empty] left there.  When these leftovers are numbers the
    denominator is the positive sum of the model; when the leftover of
    [grad_G] is not a number the denominator is not a number either, for
    every finite image and every parameter, and [W_K[i, l] /= ...] divides
    by it. *)
Theorem weight_denominator_reads_unwritten_gradient :
  (forall (X_in G_in Y_in : plane) (M N L : Z) (alpha_X : Q)
          (gX0 gG0 : plane) (i : Z) (k : Q),
     W_K_denominator Y_in L alpha_X (grad X_in M N gX0) (grad G_in M N gG0)
       i L 0 k
     = fabs (gG0 i 0%Z) + fmax (fabs (gX0 i 0%Z)) (alpha_X * fabs k)
       + fabs (Y_in i L - Y_in i 0%Z) + eps)
  /\ (forall g_G g_X alpha_k dY : Q,
        W_K_denominator_leftover (Finite g_G) (Finite g_X) alpha_k dY
        = Finite (fabs g_G + fmax (fabs g_X) alpha_k + fabs dY + eps))
  /\ (forall (g_X : float_val) (alpha_k dY : Q),
        W_K_denominator_leftover NaN g_X alpha_k dY = NaN).
Proof.
  split; [|split].
  - intros. unfold W_K_denominator.
    replace (L + 0 - L)%Z with 0%Z by lia.
    assert (Hcol : forall (P g0 : plane), grad P M N g0 i 0%Z = g0 i 0%Z).
    { intros P g0. unfold grad, in_range. cbn.
      rewrite andb_false_r. reflexivity. }
    rewrite !Hcol. reflexivity.
  - reflexivity.
  - intros g_X alpha_k dY. unfold W_K_denominator_leftover.
    destruct g_X; reflexivity.
Qed.

(** ** Arbitration weight *)

(** C7.  For [gamma_1 >= gamma_2 > 0] the blend weight of the arbitration
    stage lies in [[0, 1]] for every contrast and envelope, and it is the
    weight [clamp(max(contrast, 0) / clamp(X_max - X_min, gamma_2,
    gamma_1), 0, 1)] of the specification. *)
Theorem alpha_K_in_unit_interval (gamma_1 gamma_2 contrast xmax xmin : Q) :
  0 < gamma_2 -> gamma_2 <= gamma_1 ->
  0 <= alpha_K gamma_1 gamma_2 contrast xmax xmin <= 1
  /\ alpha_K gamma_1 gamma_2 contrast xmax xmin
     == alpha_reference gamma_1 gamma_2 contrast xmax xmin.
Proof.
  intros H2 H1.
  pose proof (alpha_K_denominator_pos gamma_1 gamma_2 xmax xmin H2 H1) as Hd.
  assert (Hq : 0 <= fmax contrast 0 / alpha_K_denominator gamma_1 gamma_2 xmax xmin).
  { apply Qdiv_nonneg; [|exact Hd]. case_fmax contrast 0; lra. }
  unfold alpha_reference, clamp, alpha_K.
  change (fmin (fmax (xmax - xmin) gamma_2) gamma_1)
    with (alpha_K_denominator gamma_1 gamma_2 xmax xmin).
  set (q := fmax contrast 0 / alpha_K_denominator gamma_1 gamma_2 xmax xmin) in *.
  case_fmax q 0; [|lra].
  case_fmin q 1; split; try split; lra.
Qed.

Lemma alpha_K_in_unit_interval_witness :
  0 <= alpha_K gamma_1_default gamma_2_default 1 1 0 <= 1
  /\ alpha_K gamma_1_default gamma_2_default 1 1 0
     == alpha_reference gamma_1_default gamma_2_default 1 1 0.
Proof.
  apply (alpha_K_in_unit_interval gamma_1_default gamma_2_default 1 1 0).
  - reflexivity.
  - unfold Qle; simpl; lia.
Defined.

(** ** Envelope and TI stage of ti_and_ca_filtering1D *)

Section Filter1D_facts.

Variables (X_in G_in Y_in : plane) (M N L : Z).
Variables (rho : list Q) (alpha_X tau : Q).
Variable mem : filter_mem.
Variables (grad_X grad_G : plane).

Lemma envelope_bounds (i j : Z) :
  let w := envelope X_in L i j in
  (X_Emin w <= X_in i j <= X_Emax w) /\ (X_Wmin w <= X_in i j <= X_Wmax w).
Proof.
  unfold envelope.
  apply (loop_invariant _
           (fun w => (X_Emin w <= X_in i j <= X_Emax w)
                     /\ (X_Wmin w <= X_in i j <= X_Wmax w))).
  - intros w l _ [[H1 H2] [H3 H4]].
    unfold envelope_step; cbn [X_Emax X_Emin X_Wmax X_Wmin].
    repeat case_cmp; repeat split; lra.
  - cbn. repeat split; lra.
Qed.

Lemma select_couple_bounds (w : window) (c : Q) :
  (X_Emin w <= c <= X_Emax w) /\ (X_Wmin w <= c <= X_Wmax w) ->
  snd (select_couple w) <= c <= fst (select_couple w).
Proof.
  intros [[H1 H2] [H3 H4]]. unfold select_couple.
  case_cmp; cbn; split; assumption.
Qed.

Lemma selected_envelope_bounds (i j : Z) :
  snd (select_couple (envelope X_in L i j)) <= X_in i j
  <= fst (select_couple (envelope X_in L i j)).
Proof. apply select_couple_bounds. apply envelope_bounds. Qed.

(** The TI chroma of the window center stays between zero and the raw
    chroma. *)
Lemma K_TI_center_bounds (i j : Z) (xmax xmin : Q) :
  xmin <= X_in i j <= xmax ->
  let k := K_TI_offset X_in G_in L rho mem i j xmax xmin L in
  (G_in i j < X_in i j -> 0 <= k <= X_in i j - G_in i j)
  /\ (X_in i j <= G_in i j -> X_in i j - G_in i j <= k <= 0).
Proof.
  intros [Hlo Hhi]. unfold K_TI_offset.
  replace (j + L - L)%Z with j by lia. cbv zeta.
  destruct (X_in i j >? G_in i j) eqn:Hb;
    [apply Qgtb_gt in Hb | apply Qgtb_le in Hb].
  - split; [intros _ | intro; lra].
    case_fmax xmin (G_in i j); repeat case_cmp; lra.
  - split; [intro; lra | intros _].
    case_fmin xmax (G_in i j); repeat case_cmp; lra.
Qed.

Let step := offset_step X_in G_in Y_in L rho alpha_X tau mem grad_X grad_G.

(** When the loop over the offsets ends, [K_TI[i, L]] is the TI chroma of
    the center of the current window. *)
Lemma offset_loop_center (i j : Z) (xmax xmin : Q) (a : acc) :
  (0 <= L)%Z ->
  K_TI_row (fold_left (step i j xmax xmin) (range 0 (2 * L + 1)) a) L
  = K_TI_offset X_in G_in L rho mem i j xmax xmin L.
Proof.
  intro HL.
  apply (loop_last_write _
           (fun a => K_TI_row a L
                     = K_TI_offset X_in G_in L rho mem i j xmax xmin L) L).
  - apply In_range. lia.
  - intros s. unfold step, offset_step, set_cell; cbn [K_TI_row].
    rewrite Z.eqb_refl. reflexivity.
  - intros s l Hne Hs. unfold step, offset_step, set_cell; cbn [K_TI_row].
    destruct (L =? l)%Z eqn:E; [apply Z.eqb_eq in E; congruence | exact Hs].
Qed.

Let pixel := filter_pixel X_in G_in Y_in L rho alpha_X tau mem grad_X grad_G.
Let row := filter_row X_in G_in Y_in N L rho alpha_X tau mem grad_X grad_G.
Let done := pixel_done X_in G_in L rho mem.

Lemma upd_same (P : plane) (i j : Z) (v : Q) : upd P i j v i j = v.
Proof. unfold upd. rewrite !Z.eqb_refl. reflexivity. Qed.

Lemma upd_other (P : plane) (i j i' j' : Z) (v : Q) :
  i' <> i \/ j' <> j -> upd P i j v i' j' = P i' j'.
Proof.
  intro H. unfold upd.
  destruct (i' =? i)%Z eqn:Ei; destruct (j' =? j)%Z eqn:Ej; try reflexivity.
  apply Z.eqb_eq in Ei, Ej. destruct H; contradiction.
Qed.

Lemma filter_pixel_done (s : filter_state) (i j : Z) :
  (0 <= L)%Z -> done (pixel i s j) i j.
Proof.
  intro HL. unfold done, pixel_done, pixel, filter_pixel.
  destruct (select_couple (envelope X_in L i j)) as [xmax xmin].
  cbn [X_max X_min K_TI_hor fst snd]. rewrite !upd_same.
  repeat split. apply offset_loop_center. exact HL.
Qed.

Lemma filter_pixel_other (s : filter_state) (i j i' j' : Z) :
  i' <> i \/ j' <> j -> done s i j -> done (pixel i' s j') i j.
Proof.
  intros Hne Hs. unfold done, pixel_done, pixel, filter_pixel in *.
  destruct (select_couple (envelope X_in L i' j')) as [xmax' xmin'].
  cbn [X_max X_min K_TI_hor].
  rewrite !upd_other by (destruct Hne; [left | right]; congruence).
  exact Hs.
Qed.

Lemma filter_row_done (s : filter_state) (i j : Z) :
  (0 <= L)%Z -> (L <= j < N - L)%Z -> done (row s i) i j.
Proof.
  intros HL Hj. unfold row, filter_row.
  apply (loop_last_write _ (fun s => done s i j) j).
  - apply In_range. exact Hj.
  - intros s'. apply filter_pixel_done. exact HL.
  - intros s' j' Hne Hs. apply filter_pixel_other; [right; congruence | exact Hs].
Qed.

Lemma filter_row_other (s : filter_state) (i j i' : Z) :
  i' <> i -> done s i j -> done (row s i') i j.
Proof.
  intros Hne Hs. unfold row, filter_row.
  apply (loop_invariant _ (fun s => done s i j)); [|exact Hs].
  intros s' j' _ Hs'. apply filter_pixel_other; [left; congruence | exact Hs'].
Qed.

Lemma filter_loops_done (s : filter_state) (i j : Z) :
  (0 <= L)%Z -> (L <= i < M - L)%Z -> (L <= j < N - L)%Z ->
  done (fold_left row (range L (M - L)) s) i j.
Proof.
  intros HL Hi Hj.
  apply (loop_last_write _ (fun s => done s i j) i).
  - apply In_range. exact Hi.
  - intros s'. apply filter_row_done; assumption.
  - intros s' i' Hne Hs. apply filter_row_other; [congruence | exact Hs].
Qed.

End Filter1D_facts.

(** [2 * L + 1] does not wrap for [-2^30 <= L < 2^30]; it wraps to a
    negative [int] for [2^30 <= L <= INT_MAX]. *)
Lemma wrap_int_small (L : Z) :
  (-1073741824 <= L < 1073741824)%Z -> wrap_int (2 * L + 1) = (2 * L + 1)%Z.
Proof.
  intro H. unfold wrap_int. rewrite Z.mod_small by lia. lia.
Qed.

Lemma wrap_int_large (L : Z) :
  (1073741824 <= L <= INT_MAX)%Z ->
  wrap_int (2 * L + 1) = (2 * L + 1 - 4294967296)%Z.
Proof.
  unfold INT_MAX. intro H. unfold wrap_int.
  replace (2 * L + 1 + 2147483648)%Z
    with (2 * L + 1 - 2147483648 + 1 * 4294967296)%Z by lia.
  rewrite Z.mod_add by lia. rewrite Z.mod_small by lia. lia.
Qed.

Lemma ti_and_ca_filtering1D_Ok (X_in G_in Y_in : plane) (M N L : Z)
    (rho : list Q) (alpha_X tau : Q) (mem : filter_mem)
    (K_hor0 K_TI_hor0 X_max0 X_min0 : plane) :
  (0 <= L < 1073741824)%Z ->
  ti_and_ca_filtering1D X_in G_in Y_in M N L rho alpha_X tau mem
    K_hor0 K_TI_hor0 X_max0 X_min0
  = Ok (fold_left
          (filter_row X_in G_in Y_in N L rho alpha_X tau mem
             (grad X_in M N (e_grad_X mem)) (grad G_in M N (e_grad_G mem)))
          (range L (M - L))
          {| K_hor := K_hor0; K_TI_hor := K_TI_hor0;
             X_max := X_max0; X_min := X_min0; K_TI := e_K_TI mem |}).
Proof.
  intro HL. unfold ti_and_ca_filtering1D, np_empty_check. cbv zeta.
  rewrite wrap_int_small by lia.
  destruct (2 * L + 1 <? 0)%Z eqn:E; [apply Z.ltb_lt in E; lia | reflexivity].
Qed.

(** C6, as the code has it.  For every plane [X], half-window
    [0 <= L < 2^30] and pixel [(i, j)] of the region the loops of
    ti_and_ca_filtering1D cover, which is cut by [L] along the rows as well
    as along the filtered axis ([L <= i < M - L] and [L <= j < N - L]), the
    call returns and the envelope it stores satisfies
    [X_min[i, j] <= X[i, j] <= X_max[i, j]], whatever the output blocks
    held before. *)
Theorem envelope_invariant (X_in G_in Y_in : plane) (M N L : Z)
    (rho : list Q) (alpha_X tau : Q) (mem : filter_mem)
    (K_hor0 K_TI_hor0 X_max0 X_min0 : plane) (i j : Z) :
  (0 <= L < 1073741824)%Z -> (L <= i < M - L)%Z -> (L <= j < N - L)%Z ->
  exists s,
    ti_and_ca_filtering1D X_in G_in Y_in M N L rho alpha_X tau mem
      K_hor0 K_TI_hor0 X_max0 X_min0 = Ok s
    /\ X_min s i j <= X_in i j <= X_max s i j.
Proof.
  intros HL Hi Hj. eexists. split.
  - apply ti_and_ca_filtering1D_Ok. exact HL.
  - match goal with |- X_min ?s _ _ <= _ <= _ =>
      assert (Hd : pixel_done X_in G_in L rho mem s i j)
        by (apply filter_loops_done; [lia | assumption | assumption])
    end.
    destruct Hd as (Hmax & Hmin & _). rewrite Hmax, Hmin.
    apply selected_envelope_bounds.
Qed.

(** C10, as the code has it.  For every half-window [0 <= L < 2^30] and
    every pixel [(i, j)] of the region the loops cover, cut by [L] along
    the rows as well ([L <= i < M - L] and [L <= j < N - L]), the TI chroma
    of the window center stored in [K_TI_hor[i, j]] lies between zero and
    the raw chroma [X[i, j] - G[i, j]]: it never has the opposite sign and
    its magnitude is at most [|X[i, j] - G[i, j]|]. *)
Theorem K_TI_hor_bounded_by_raw_chroma (X_in G_in Y_in : plane) (M N L : Z)
    (rho : list Q) (alpha_X tau : Q) (mem : filter_mem)
    (K_hor0 K_TI_hor0 X_max0 X_min0 : plane) (i j : Z) :
  (0 <= L < 1073741824)%Z -> (L <= i < M - L)%Z -> (L <= j < N - L)%Z ->
  exists s,
    ti_and_ca_filtering1D X_in G_in Y_in M N L rho alpha_X tau mem
      K_hor0 K_TI_hor0 X_max0 X_min0 = Ok s
    /\ (G_in i j < X_in i j ->
        0 <= K_TI_hor s i j <= X_in i j - G_in i j)
    /\ (X_in i j <= G_in i j ->
        X_in i j - G_in i j <= K_TI_hor s i j <= 0)
    /\ fabs (K_TI_hor s i j) <= fabs (X_in i j - G_in i j).
Proof.
  intros HL Hi Hj. eexists. split.
  - apply ti_and_ca_filtering1D_Ok. exact HL.
  - match goal with |- (_ -> _ <= K_TI_hor ?s _ _ <= _) /\ _ =>
      assert (Hd : pixel_done X_in G_in L rho mem s i j)
        by (apply filter_loops_done; [lia | assumption | assumption]);
      set (st := s) in *
    end.
    destruct Hd as (_ & _ & Hk). rewrite Hk.
    pose proof (K_TI_center_bounds X_in G_in L rho mem i j _ _
                  (selected_envelope_bounds X_in L i j)) as [Hpos Hneg].
    cbv zeta in Hpos, Hneg.
    set (k := K_TI_offset _ _ _ _ _ _ _ _ _ _) in *.
    split; [exact Hpos | split; [exact Hneg |]].
    unfold fabs.
    destruct (Qlt_le_dec (G_in i j) (X_in i j)) as [Hlt | Hle].
    + specialize (Hpos Hlt).
      rewrite (Qabs_pos k) by lra.
      rewrite (Qabs_pos (X_in i j - G_in i j)) by lra. lra.
    + specialize (Hneg Hle).
      rewrite (Qabs_neg k) by lra.
      rewrite (Qabs_neg (X_in i j - G_in i j)) by lra. lra.
Qed.

Lemma envelope_invariant_witness :
  exists s,
    ti_and_ca_filtering1D flat34 spot34 (luma flat34 spot34 flat34) 3 4 1
      rho_default alpha_default tau_default zero_filter_mem
      zeros zeros zeros zeros = Ok s
    /\ X_min s 1%Z 2%Z <= flat34 1%Z 2%Z <= X_max s 1%Z 2%Z.
Proof.
  apply (envelope_invariant flat34 spot34 (luma flat34 spot34 flat34) 3 4 1
           rho_default alpha_default tau_default zero_filter_mem
           zeros zeros zeros zeros 1 2); lia.
Defined.

Lemma K_TI_hor_bounded_by_raw_chroma_witness :
  exists s,
    ti_and_ca_filtering1D flat34 spot34 (luma flat34 spot34 flat34) 3 4 1
      rho_default alpha_default tau_default zero_filter_mem
      zeros zeros zeros zeros = Ok s
    /\ (spot34 1%Z 1%Z < flat34 1%Z 1%Z ->
        0 <= K_TI_hor s 1%Z 1%Z <= flat34 1%Z 1%Z - spot34 1%Z 1%Z)
    /\ (flat34 1%Z 1%Z <= spot34 1%Z 1%Z ->
        flat34 1%Z 1%Z - spot34 1%Z 1%Z <= K_TI_hor s 1%Z 1%Z <= 0)
    /\ fabs (K_TI_hor s 1%Z 1%Z) <= fabs (flat34 1%Z 1%Z - spot34 1%Z 1%Z).
Proof.
  apply (K_TI_hor_bounded_by_raw_chroma flat34 spot34
           (luma flat34 spot34 flat34) 3 4 1
           rho_default alpha_default tau_default zero_filter_mem
           zeros zeros zeros zeros 1 1); lia.
Defined.

(** C6, as the specification has it, fails.  On the 3 x 3 plane [top3]
    with [L = 1] and zero-filled blocks, the pixel (0, 1) is interior along
    the filtered axis ([L <= j < N - L]) but its row is not visited: the
    call returns with [X_max[0, 1] = 0] left from the allocation, below
    [X[0, 1] = 1]. *)
Lemma envelope_invariant_fails_on_skipped_row :
  exists s,
    ti_and_ca_filtering1D top3 top3 top3 3 3 1
      rho_default alpha_default tau_default zero_filter_mem
      zeros zeros zeros zeros = Ok s
    /\ (1 <= 1 < 3 - 1)%Z
    /\ ~ (X_min s 0%Z 1%Z <= top3 0%Z 1%Z <= X_max s 0%Z 1%Z).
Proof.
  eexists. split; [apply ti_and_ca_filtering1D_Ok; lia|].
  split; [lia|].
  intros [_ H]. vm_compute in H. apply H. reflexivity.
Qed.

(** C10, as the specification has it, fails.  On the 3 x 3 gray planes
    [ramp3] with [L = 1], when the allocator left 1 in the block
    [K_TI_hor], the pixel (0, 1) is interior along the filtered axis but
    its row is not visited: [K_TI_hor[0, 1]] is still 1 while the raw
    chroma is 0. *)
Lemma K_TI_hor_bound_fails_on_skipped_row :
  exists s,
    ti_and_ca_filtering1D ramp3 ramp3 ramp3 3 3 1
      rho_default alpha_default tau_default zero_filter_mem
      zeros ones zeros zeros = Ok s
    /\ (1 <= 1 < 3 - 1)%Z
    /\ ~ (fabs (K_TI_hor s 0%Z 1%Z) <= fabs (ramp3 0%Z 1%Z - ramp3 0%Z 1%Z)).
Proof.
  eexists. split; [apply ti_and_ca_filtering1D_Ok; lia|].
  split; [lia|].
  intro H. vm_compute in H. apply H. reflexivity.
Qed.

(** ** Entry point: what is checked and what is not *)

Lemma ti_and_ca_filtering1D_Err (X_in G_in Y_in : plane) (M N L : Z)
    (rho : list Q) (alpha_X tau : Q) (mem : filter_mem)
    (K_hor0 K_TI_hor0 X_max0 X_min0 : plane) :
  (-1073741824 <= L < 0)%Z \/ (1073741824 <= L <= INT_MAX)%Z ->
  ti_and_ca_filtering1D X_in G_in Y_in M N L rho alpha_X tau mem
    K_hor0 K_TI_hor0 X_max0 X_min0
  = Err ValueError_negative_dimensions.
Proof.
  intro HL. unfold ti_and_ca_filtering1D, np_empty_check. cbv zeta.
  destruct HL as [HL | HL].
  - rewrite wrap_int_small by lia.
    destruct (2 * L + 1 <? 0)%Z eqn:E; [reflexivity | apply Z.ltb_ge in E; lia].
  - rewrite wrap_int_large by exact HL. unfold INT_MAX in HL.
    destruct (2 * L + 1 - 4294967296 <? 0)%Z eqn:E;
      [reflexivity | apply Z.ltb_ge in E; lia].
Qed.

Lemma as_int_Ok (z : Z) : (INT_MIN <= z <= INT_MAX)%Z -> as_int z = Ok z.
Proof.
  intro H. unfold as_int.
  destruct (INT_MIN <=? z)%Z eqn:E1; [|apply Z.leb_gt in E1; lia].
  destruct (z <=? INT_MAX)%Z eqn:E2; [|apply Z.leb_gt in E2; lia].
  reflexivity.
Qed.



Lemma correct_chromatic_aberration_body (I_in : image) (L_hor L_ver : Z)
    (rho : list Q) (tau alpha_R alpha_B beta_R beta_B gamma_1 gamma_2 : Q)
    (u : uninit) :
  (INT_MIN <= L_hor <= INT_MAX)%Z -> (INT_MIN <= L_ver <= INT_MAX)%Z ->
  correct_chromatic_aberration I_in L_hor L_ver rho tau alpha_R alpha_B
    beta_R beta_B gamma_1 gamma_2 u
  = (K_out <- arbitrated_chroma I_in L_hor L_ver rho tau alpha_R alpha_B
                beta_R beta_B gamma_1 gamma_2 u ;;
     Ok {| shape0 := shape0 I_in; shape1 := shape1 I_in; shape2 := 3;
           pix := fun i j c =>
             if (c =? 0)%Z then fst K_out i j + pix I_in i j 1
             else if (c =? 1)%Z then pix I_in i j 1
             else snd K_out i j + pix I_in i j 1 |}).
Proof.
  intros Hh Hv. unfold correct_chromatic_aberration.
  rewrite (as_int_Ok L_hor Hh), (as_int_Ok L_ver Hv). reflexivity.
Qed.







(** ** The FC accumulation of ti_and_ca_filtering1D on sample planes *)

(** C2, evaluated.  On the 3 x 4 planes [flat34] (red) and [spot34]
    (green) with [L = 1] and the default parameters, at the pixel (1, 2)
    of the covered region: (a) two runs that differ only in what the
    allocator left in the output block [K_hor] return different
    [K_hor[1, 2]], because the accumulation [K_hor[i, j] += ...] starts
    from the content of the block; (b) with every block holding zeros the
    returned [K_hor[1, 2]] is still not the weighted sum of the
    specification, which is zero there: for the offsets before the center
    the sign test and clip read in [K_TI[i, L]] the center of the previous
    pixel. *)
Theorem K_hor_accumulation_on_samples :
  exists s0 s1,
    ti_and_ca_filtering1D flat34 spot34 (luma flat34 spot34 flat34) 3 4 1
      rho_default alpha_default tau_default zero_filter_mem
      zeros zeros zeros zeros = Ok s0
    /\ ti_and_ca_filtering1D flat34 spot34 (luma flat34 spot34 flat34) 3 4 1
         rho_default alpha_default tau_default zero_filter_mem
         ones zeros zeros zeros = Ok s1
    /\ ~ K_hor s0 1%Z 2%Z == K_hor s1 1%Z 2%Z
    /\ ~ K_hor s0 1%Z 2%Z
         == FC_reference flat34 spot34 (luma flat34 spot34 flat34) 3 4 1
              rho_default alpha_default tau_default zero_filter_mem 1 2
    /\ FC_reference flat34 spot34 (luma flat34 spot34 flat34) 3 4 1
         rho_default alpha_default tau_default zero_filter_mem 1 2 == 0.
Proof.
  eexists. eexists.
  split; [apply ti_and_ca_filtering1D_Ok; lia|].
  split; [apply ti_and_ca_filtering1D_Ok; lia|].
  split; [|split].
  - apply Qeq_bool_neq. vm_compute. reflexivity.
  - apply Qeq_bool_neq. vm_compute. reflexivity.
  - apply Qeq_bool_eq. vm_compute. reflexivity.
Qed.

(** ** The biased contrast of arbitration on sample planes *)

(** C3, evaluated.  On the 3 x 3 plane [step3] taken for both [X] and [G]
    (no bias), with [L_hor = 1], the pixel (1, 1) has the sample 1 in its
    East half-window [[j+1, j+L]] = [[2, 2]]: the contrast of the
    specification is 1, the horizontal pass of arbitration stores 0,
    because its loop scans [X[i, j + l]] and [X[i, j - L + l + 1]], that is
    the windows [[j, j+L-1]] and [[j-L+1, j]]. *)
Theorem contrast_hor_windows_on_samples :
  contrast_reference beta_default step3 step3 1 1 1 == 1
  /\ contrast_hor_pixel beta_default step3 step3 1 1 1 == 0
  /\ X_contrast_hor step3 step3 beta_default 1 3 3 zero_arb_mem 1%Z 1%Z == 0.
Proof.
  repeat split; apply Qeq_bool_eq; vm_compute; reflexivity.
Qed.

(** C4, evaluated.  On the same planes, taken as the transposed inputs of
    the vertical pass with [L_ver = 1], the vertical computation stores 1
    at (1, 1) and the horizontal computation run on the same planes with
    the same half-window stores 0. *)
Theorem contrast_ver_is_not_contrast_hor_on_samples :
  contrast_ver_pixel beta_default step3 step3 1 1 1 == 1
  /\ contrast_hor_pixel beta_default step3 step3 1 1 1 == 0
  /\ ~ contrast_ver_pixel beta_default step3 step3 1 1 1
       == contrast_hor_pixel beta_default step3 step3 1 1 1.
Proof.
  repeat split; try (apply Qeq_bool_eq; vm_compute; reflexivity).
  apply Qeq_bool_neq. vm_compute. reflexivity.
Qed.

(** ** Gray images *)

(** C1, evaluated.  On the 3 x 3 gray image [ramp3] with
    [L_hor = L_ver = 1] and the default parameters, when the allocator
    left 1 in the cells of the output blocks [K_hor] (and zeros elsewhere),
    the arbitrated red chroma at the interior pixel (1, 1) is not zero and
    the red sample of the output differs from the input. *)
Theorem gray_image_not_preserved_on_samples :
  exists K_out I_out,
    arbitrated_chroma (gray_image ramp3 3 3) 1 1 rho_default tau_default
      alpha_default alpha_default beta_default beta_default
      gamma_1_default gamma_2_default (uninit_with ones) = Ok K_out
    /\ correct_chromatic_aberration (gray_image ramp3 3 3) 1 1 rho_default
         tau_default alpha_default alpha_default beta_default beta_default
         gamma_1_default gamma_2_default (uninit_with ones) = Ok I_out
    /\ ~ fst K_out 1%Z 1%Z == 0
    /\ ~ pix I_out 1 1 0 == pix (gray_image ramp3 3 3) 1 1 0.
Proof.
  eexists. eexists.
  split.
  { unfold arbitrated_chroma, run_filter. cbv zeta.
    rewrite !ti_and_ca_filtering1D_Ok by lia. cbn [bind]. reflexivity. }
  split.
  { unfold correct_chromatic_aberration, arbitrated_chroma, run_filter.
    cbv zeta. rewrite !ti_and_ca_filtering1D_Ok by lia. cbn [bind].
    reflexivity. }
  split; apply Qeq_bool_neq; vm_compute; reflexivity.
Qed.

(** ** Gray planes and zero-filled blocks *)

Section Gray_planes.

Variables (X_in G_in Y_in : plane) (M N L : Z).
Variables (rho : list Q) (alpha_X tau : Q).
Variable mem : filter_mem.
Variables (grad_X grad_G : plane).
Hypothesis X_is_G : forall i j, X_in i j = G_in i j.

Lemma K_TI_center_gray (i j : Z) (xmax xmin : Q) :
  xmin <= X_in i j <= xmax ->
  K_TI_offset X_in G_in L rho mem i j xmax xmin L == 0.
Proof.
  intro Hb.
  destruct (K_TI_center_bounds X_in G_in L rho mem i j xmax xmin Hb)
    as [_ Hneg].
  cbv zeta in Hneg.
  assert (Hd : X_in i j - G_in i j == 0) by (rewrite X_is_G; lra).
  assert (Hle : X_in i j <= G_in i j) by (rewrite X_is_G; lra).
  specialize (Hneg Hle). lra.
Qed.

Lemma offset_step_gray (i j : Z) (xmax xmin : Q) (a : acc) (l : Z) :
  xmin <= X_in i j <= xmax ->
  K_acc a == 0 /\ K_TI_row a L == 0 ->
  let a' := offset_step X_in G_in Y_in L rho alpha_X tau mem grad_X grad_G
              i j xmax xmin a l in
  K_acc a' == 0 /\ K_TI_row a' L == 0.
Proof.
  intros Hb [Hacc Hrow]. cbv zeta. unfold offset_step. cbn [K_acc K_TI_row].
  set (row' := set_cell (K_TI_row a) l (K_TI_offset X_in G_in L rho mem i j xmax xmin l)).
  assert (Hc : row' L == 0).
  { unfold row', set_cell. destruct (L =? l)%Z eqn:E; [|exact Hrow].
    apply Z.eqb_eq in E. subst l. apply K_TI_center_gray. exact Hb. }
  split; [|exact Hc].
  rewrite Hacc, (clip_zero_ref (row' l) (row' L) Hc). ring.
Qed.

Lemma filter_pixel_gray (i j : Z) (s : filter_state) :
  zero_chroma L s ->
  zero_chroma L (filter_pixel X_in G_in Y_in L rho alpha_X tau mem
                   grad_X grad_G i s j).
Proof.
  intros (HK & HTI & Hrow). unfold filter_pixel.
  pose proof (selected_envelope_bounds X_in L i j) as Hb.
  destruct (select_couple (envelope X_in L i j)) as [xmax xmin].
  cbn [fst snd] in Hb.
  match goal with |- context [fold_left ?f ?l ?a0] =>
    assert (Ha : K_acc (fold_left f l a0) == 0
                 /\ K_TI_row (fold_left f l a0) L == 0)
  end.
  { apply (loop_invariant _ (fun a => K_acc a == 0 /\ K_TI_row a L == 0)).
    - intros a l _ Ha. apply offset_step_gray; assumption.
    - cbn [K_acc K_TI_row]. split; [apply HK | apply Hrow]. }
  destruct Ha as [Hacc Hc].
  unfold zero_chroma. cbn [K_hor K_TI_hor K_TI].
  split; [|split].
  - intros i' j'. unfold upd.
    destruct ((i' =? i)%Z && (j' =? j)%Z)%bool; [|apply HK].
    rewrite Hacc. unfold Qdiv. ring.
  - intros i' j'. unfold upd.
    destruct ((i' =? i)%Z && (j' =? j)%Z)%bool; [exact Hc | apply HTI].
  - intros i'. unfold upd_row.
    destruct (i' =? i)%Z; [exact Hc | apply Hrow].
Qed.

Lemma filter_loops_gray (s : filter_state) :
  zero_chroma L s ->
  zero_chroma L
    (fold_left
       (filter_row X_in G_in Y_in N L rho alpha_X tau mem grad_X grad_G)
       (range L (M - L)) s).
Proof.
  intro Hs.
  apply (loop_invariant _ (zero_chroma L)); [|exact Hs].
  intros s' i _ Hs'. unfold filter_row.
  apply (loop_invariant _ (zero_chroma L)); [|exact Hs'].
  intros s'' j _ Hs''. apply filter_pixel_gray. exact Hs''.
Qed.

End Gray_planes.

Lemma run_filter_gray (X_in G_in Y_in : plane) (M N L : Z) (rho : list Q)
    (alpha_X tau : Q) (m : call_mem) :
  (forall i j, X_in i j = G_in i j) -> zero_call_mem m ->
  (0 <= L < 1073741824)%Z ->
  exists s,
    run_filter X_in G_in Y_in M N L rho alpha_X tau m = Ok s
    /\ zero_chroma L s.
Proof.
  intros Hg (HK & HTI & Hrow) HL. unfold run_filter.
  rewrite ti_and_ca_filtering1D_Ok by exact HL.
  eexists. split; [reflexivity|].
  apply filter_loops_gray; [exact Hg|].
  unfold zero_chroma. cbn [K_hor K_TI_hor K_TI].
  split; [exact HK | split; [exact HTI | intros i; apply Hrow]].
Qed.

Lemma merge_zero (sel_hor sel_ver P_hor P_ver : plane) (i j : Z) :
  P_hor i j == 0 -> P_ver i j == 0 ->
  merge sel_hor sel_ver P_hor P_ver i j == 0.
Proof.
  intros Hh Hv. unfold merge.
  destruct (fabs (sel_hor i j) <? fabs (sel_ver i j)); assumption.
Qed.

Lemma arbitration_zero (K K_TI_in X G X_max_in X_min_in : plane) (beta_X : Q)
    (L_hor L_ver : Z) (gamma_1 gamma_2 : Q) (M N : Z) (mem : arb_mem)
    (i j : Z) :
  K i j == 0 -> K_TI_in i j == 0 ->
  arbitration K K_TI_in X G X_max_in X_min_in beta_X L_hor L_ver
    gamma_1 gamma_2 M N mem i j == 0.
Proof.
  intros HK HTI. unfold arbitration. cbv zeta. rewrite HK, HTI. ring.
Qed.

Lemma arbitrated_chroma_gray (I_in : image) (L_hor L_ver : Z) (rho : list Q)
    (tau alpha_R alpha_B beta_R beta_B gamma_1 gamma_2 : Q) (u : uninit) :
  gray I_in -> zero_blocks u ->
  (0 <= L_hor < 1073741824)%Z -> (0 <= L_ver < 1073741824)%Z ->
  exists K_out,
    arbitrated_chroma I_in L_hor L_ver rho tau alpha_R alpha_B
      beta_R beta_B gamma_1 gamma_2 u = Ok K_out
    /\ (forall i j, fst K_out i j == 0 /\ snd K_out i j == 0).
Proof.
  intros Hg (Hrh & Hbh & Hrv & Hbv) Hh Hv.
  unfold arbitrated_chroma. cbv zeta.
  set (R_in := (fun i j => pix I_in i j 0) : plane).
  set (G_in := (fun i j => pix I_in i j 1) : plane).
  set (B_in := (fun i j => pix I_in i j 2) : plane).
  set (Y_in := (fun i j => _ + _) : plane).
  assert (HR : forall i j, R_in i j = G_in i j) by (intros; apply Hg).
  assert (HB : forall i j, B_in i j = G_in i j) by (intros; apply Hg).
  assert (HRt : forall i j, transpose R_in i j = transpose G_in i j)
    by (intros; apply Hg).
  assert (HBt : forall i j, transpose B_in i j = transpose G_in i j)
    by (intros; apply Hg).
  destruct (run_filter_gray R_in G_in Y_in (shape0 I_in) (shape1 I_in) L_hor
              rho alpha_R tau (u_r_hor u) HR Hrh Hh)
    as (r_hor & Erh & Krh & Trh & _).
  destruct (run_filter_gray B_in G_in Y_in (shape0 I_in) (shape1 I_in) L_hor
              rho alpha_B tau (u_b_hor u) HB Hbh Hh)
    as (b_hor & Ebh & Kbh & Tbh & _).
  destruct (run_filter_gray (transpose R_in) (transpose G_in) (transpose Y_in)
              (shape1 I_in) (shape0 I_in) L_ver
              rho alpha_R tau (u_r_ver u) HRt Hrv Hv)
    as (r_ver & Erv & Krv & Trv & _).
  destruct (run_filter_gray (transpose B_in) (transpose G_in) (transpose Y_in)
              (shape1 I_in) (shape0 I_in) L_ver
              rho alpha_B tau (u_b_ver u) HBt Hbv Hv)
    as (b_ver & Ebv & Kbv & Tbv & _).
  rewrite Erh, Ebh, Erv, Ebv. cbn [bind].
  eexists. split; [reflexivity|].
  intros i j. cbn [fst snd].
  split; apply arbitration_zero; apply merge_zero; unfold transpose; auto.
Qed.

Lemma all_blocks_zero_chroma (u : uninit) : all_blocks_zero u -> zero_blocks u.
Proof.
  intros ((H1 & _) & (H2 & _) & (H3 & _) & (H4 & _) & _).
  repeat split; first [apply H1 | apply H2 | apply H3 | apply H4].
Qed.

(** X23.  Gray images under the assumption the code leaves out.  When
    every block that [np.empty] hands out holds zeros, for half-windows
    [0 <= L_hor, L_ver < 2^30], [gamma_1 >= gamma_2 > 0] and the three
    coefficients of [rho] present, a gray image goes through unchanged: the
    arbitrated chroma planes are zero and the output equals the input at
    every pixel. *)
Lemma gray_image_preserved_when_blocks_hold_zeros (I_in : image)
    (L_hor L_ver : Z) (rho : list Q)
    (tau alpha_R alpha_B beta_R beta_B gamma_1 gamma_2 : Q) (u : uninit) :
  gray I_in -> all_blocks_zero u ->
  (3 <= length rho)%nat -> 0 < gamma_2 -> gamma_2 <= gamma_1 ->
  (0 <= L_hor < 1073741824)%Z -> (0 <= L_ver < 1073741824)%Z ->
  exists K_out I_out,
    arbitrated_chroma I_in L_hor L_ver rho tau alpha_R alpha_B
      beta_R beta_B gamma_1 gamma_2 u = Ok K_out
    /\ correct_chromatic_aberration I_in L_hor L_ver rho tau alpha_R alpha_B
         beta_R beta_B gamma_1 gamma_2 u = Ok I_out
    /\ (forall i j, fst K_out i j == 0 /\ snd K_out i j == 0)
    /\ (forall i j c, (0 <= c < 3)%Z -> pix I_out i j c == pix I_in i j c).
Proof.
  intros Hg Hz _ _ _ Hh Hv.
  destruct (arbitrated_chroma_gray I_in L_hor L_ver rho tau alpha_R alpha_B
              beta_R beta_B gamma_1 gamma_2 u Hg (all_blocks_zero_chroma u Hz)
              Hh Hv)
    as (K_out & HK & Hzero).
  exists K_out. eexists.
  split; [exact HK|].
  split.
  { rewrite correct_chromatic_aberration_body
      by (unfold INT_MIN, INT_MAX; lia).
    rewrite HK. cbn [bind]. reflexivity. }
  split; [exact Hzero|].
  intros i j c Hc. cbn [pix].
  destruct (Hzero i j) as [Hr Hb]. destruct (Hg i j) as [Hg0 Hg2].
  destruct (c =? 0)%Z eqn:E0.
  - apply Z.eqb_eq in E0. subst c. rewrite Hr, Hg0. ring.
  - destruct (c =? 1)%Z eqn:E1.
    + apply Z.eqb_eq in E1. subst c. reflexivity.
    + apply Z.eqb_neq in E0, E1. assert (c = 2%Z) by lia. subst c.
      rewrite Hb, Hg2. ring.
Qed.

(** ** What one turn of the pixel loop stores in [K_hor] *)

Section Accumulation.

Variables (X_in G_in Y_in : plane) (L : Z).
Variables (rho : list Q) (alpha_X tau : Q).
Variable mem : filter_mem.
Variables (grad_X grad_G : plane).
Variables (i j : Z) (xmax xmin : Q).

Let step :=
  offset_step X_in G_in Y_in L rho alpha_X tau mem grad_X grad_G i j xmax xmin.

(** The offsets loop adds its terms to whatever [K_hor[i, j]] held; the
    row of [K_TI] and the weight sum do not depend on that content. *)
Lemma offset_loop_adds (ls : list Z) : forall a,
  let r := fold_left step ls a in
  let r0 := fold_left step ls
              {| K_TI_row := K_TI_row a; K_acc := 0; W_K_sum := W_K_sum a |} in
  K_TI_row r = K_TI_row r0
  /\ W_K_sum r = W_K_sum r0
  /\ K_acc r == K_acc a + K_acc r0.
Proof.
  induction ls as [|l ls IH]; intros a; cbv zeta.
  - cbn. repeat split. ring.
  - cbn [fold_left].
    destruct (IH (step a l)) as (R1 & W1 & A1).
    destruct (IH (step {| K_TI_row := K_TI_row a; K_acc := 0;
                          W_K_sum := W_K_sum a |} l)) as (R2 & W2 & A2).
    cbv zeta in *.
    unfold step, offset_step in *. cbn [K_TI_row K_acc W_K_sum] in *.
    rewrite R1, W1, A1, R2, W2, A2.
    repeat split. ring.
Qed.

End Accumulation.

(** X21.  The turn [(i, j)] of the loops stores in [K_hor[i, j]] the
    previous content of that cell plus the weighted sum, divided by the
    weight sum plus epsilon: the cell is never reset before the
    accumulation. *)
Lemma filter_pixel_K_hor (X_in G_in Y_in : plane) (L : Z) (rho : list Q)
    (alpha_X tau : Q) (mem : filter_mem) (grad_X grad_G : plane)
    (s : filter_state) (i j : Z) :
  let a0 :=
    fold_left
      (offset_step X_in G_in Y_in L rho alpha_X tau mem grad_X grad_G i j
         (fst (select_couple (envelope X_in L i j)))
         (snd (select_couple (envelope X_in L i j))))
      (range 0 (2 * L + 1))
      {| K_TI_row := K_TI s i; K_acc := 0; W_K_sum := 0 |} in
  K_hor (filter_pixel X_in G_in Y_in L rho alpha_X tau mem grad_X grad_G
           i s j) i j
  == (K_hor s i j + K_acc a0) / (W_K_sum a0 + eps).
Proof.
  cbv zeta. unfold filter_pixel.
  destruct (select_couple (envelope X_in L i j)) as [xmax xmin].
  cbn [K_hor fst snd]. rewrite upd_same.
  destruct (offset_loop_adds X_in G_in Y_in L rho alpha_X tau mem
              grad_X grad_G i j xmax xmin (range 0 (2 * L + 1))
              {| K_TI_row := K_TI s i; K_acc := K_hor s i j; W_K_sum := 0 |})
    as (_ & HW & HA).
  cbv zeta in HW, HA. cbn [K_TI_row K_acc W_K_sum] in HW, HA.
  rewrite HW, HA. reflexivity.
Qed.

(** ** The horizontal contrast with a half-window of one *)

(** X22.  With [L_hor = 1] the horizontal loop of arbitration compares the
    center with itself only: the stored contrast is zero for every
    [beta_X >= 0], whatever the neighbours are. *)
Lemma contrast_hor_pixel_L1 (beta_X : Q) (X G : plane) (i j : Z) :
  0 <= beta_X -> contrast_hor_pixel beta_X X G 1 i j == 0.
Proof.
  intro Hb.
  assert (Hbias : forall c, 0 <= beta_X * fabs (X i j - G i c)).
  { intro c. apply Qmult_le_0_compat; [exact Hb | apply fabs_nonneg]. }
  unfold contrast_hor_pixel. change (range 0 1) with [0%Z].
  cbn [fold_left]. unfold contrast_hor_step.
  cbn [X_Emax X_Emin X_Wmax X_Wmin].
  replace (j - 1 + 0 + 1)%Z with j by lia.
  replace (j + 0)%Z with j by lia.
  pose proof (Hbias j) as H1. pose proof (Hbias (1 + 0)%Z) as H2.
  unfold select_couple. cbn [X_Emax X_Emin X_Wmax X_Wmin].
  repeat case_cmp; cbn [fst snd]; try lra.
Qed.

(** ** Cells outside the covered region *)

(** The loops of ti_and_ca_filtering1D write the cells with
    [L <= i < M - L] and [L <= j < N - L] only: every other cell of the four
    output blocks keeps the content the block was allocated with. *)
Lemma filter_loops_border (X_in G_in Y_in : plane) (M N L : Z)
    (rho : list Q) (alpha_X tau : Q) (mem : filter_mem)
    (grad_X grad_G : plane) (s : filter_state) (i j : Z) :
  ~ ((L <= i < M - L)%Z /\ (L <= j < N - L)%Z) ->
  let s' := fold_left
              (filter_row X_in G_in Y_in N L rho alpha_X tau mem grad_X grad_G)
              (range L (M - L)) s in
  K_hor s' i j = K_hor s i j
  /\ K_TI_hor s' i j = K_TI_hor s i j
  /\ X_max s' i j = X_max s i j
  /\ X_min s' i j = X_min s i j.
Proof.
  intros Hout. cbv zeta.
  set (kept := fun s' : filter_state =>
                 K_hor s' i j = K_hor s i j
                 /\ K_TI_hor s' i j = K_TI_hor s i j
                 /\ X_max s' i j = X_max s i j
                 /\ X_min s' i j = X_min s i j).
  apply (loop_invariant _ kept); [|unfold kept; repeat split].
  intros s1 i' Hi' H1. unfold filter_row.
  apply (loop_invariant _ kept); [|exact H1].
  intros s2 j' Hj' (HK & HT & Hmax & Hmin).
  apply In_range in Hi', Hj'.
  assert (Hne : i <> i' \/ j <> j') by lia.
  unfold kept, filter_pixel.
  destruct (select_couple (envelope X_in L i' j')) as [xmax xmin].
  cbn [K_hor K_TI_hor X_max X_min].
  rewrite !upd_other by exact Hne.
  repeat split; assumption.
Qed.

(** * Further properties of the code *)

(** ** sign and clip *)

Lemma sign_pos (x : Q) : 0 < x -> sign x = 1%Z.
Proof.
  intro H. unfold sign. apply Qgtb_gt in H. rewrite H. reflexivity.
Qed.

Lemma sign_neg (x : Q) : x < 0 -> sign x = (-1)%Z.
Proof.
  intro H. unfold sign.
  assert (H1 : (x >? 0) = false) by (apply Qgtb_le; lra).
  apply Qltb_lt in H. rewrite H1, H. reflexivity.
Qed.

Lemma sign_zero (x : Q) : x == 0 -> sign x = 0%Z.
Proof.
  intro H. unfold sign.
  assert (H1 : (x >? 0) = false) by (apply Qgtb_le; lra).
  assert (H2 : (x <? 0) = false) by (apply Qltb_ge; lra).
  rewrite H1, H2. reflexivity.
Qed.

Lemma Q_trichotomy (x : Q) : x < 0 \/ x == 0 \/ 0 < x.
Proof.
  destruct (Qlt_le_dec x 0) as [H|H]; [left; exact H|].
  destruct (Qlt_le_dec 0 x) as [H'|H']; [right; right; exact H'|].
  right; left. lra.
Qed.

(** X1.  sign is odd, [sign(-x) = -sign(x)], and it tells the order with
    zero: it returns 1 on the positive values only and -1 on the negative
    values only. *)
Theorem sign_odd_and_ordered (x : Q) :
  sign (- x) = (- sign x)%Z
  /\ (sign x = 1%Z <-> 0 < x)
  /\ (sign x = (-1)%Z <-> x < 0).
Proof.
  split; [|split].
  - destruct (Q_trichotomy x) as [H|[H|H]].
    + rewrite (sign_neg x H), (sign_pos (- x)) by lra. reflexivity.
    + rewrite (sign_zero x H), (sign_zero (- x)) by lra. reflexivity.
    + rewrite (sign_pos x H), (sign_neg (- x)) by lra. reflexivity.
  - split; [|apply sign_pos].
    intro H. destruct (Q_trichotomy x) as [Hx|[Hx|Hx]]; [| |exact Hx].
    + rewrite (sign_neg x Hx) in H. discriminate.
    + rewrite (sign_zero x Hx) in H. discriminate.
  - split; [|apply sign_neg].
    intro H. destruct (Q_trichotomy x) as [Hx|[Hx|Hx]]; [exact Hx| |].
    + rewrite (sign_zero x Hx) in H. discriminate.
    + rewrite (sign_pos x Hx) in H. discriminate.
Qed.

Lemma fabs_cases (x : Q) :
  (0 <= x /\ fabs x == x) \/ (x < 0 /\ fabs x == - x).
Proof.
  unfold fabs. destruct (Qlt_le_dec x 0) as [H|H].
  - right. split; [exact H|]. apply Qabs_neg. lra.
  - left. split; [exact H|]. apply Qabs_pos. exact H.
Qed.

(** X2.  clip is monotone in the value it clips. *)
Theorem clip_monotone (K1 K2 K_ref : Q) :
  K1 <= K2 -> clip K1 K_ref <= clip K2 K_ref.
Proof.
  intro H. unfold clip.
  destruct (K_ref >? 0).
  - case_fmin K1 K_ref; case_fmin K2 K_ref; lra.
  - destruct (K_ref <? 0); [|lra].
    case_fmax K1 K_ref; case_fmax K2 K_ref; lra.
Qed.

Lemma clip_monotone_witness : clip (1 # 4) (1 # 2) <= clip 1 (1 # 2).
Proof.
  apply (clip_monotone (1 # 4) 1 (1 # 2)). unfold Qle; simpl; lia.
Defined.

(** X3.  clip returns a value between its argument and the reference, it
    never increases the magnitude of its argument, it leaves the reference
    itself unchanged, and it is odd:
    [clip(-K, -K_ref) == -clip(K, K_ref)]. *)
Theorem clip_between_never_amplifies (K K_ref : Q) :
  fmin K K_ref <= clip K K_ref <= fmax K K_ref
  /\ fabs (clip K K_ref) <= fabs K
  /\ clip K_ref K_ref = K_ref
  /\ clip (- K) (- K_ref) == - clip K K_ref.
Proof.
  split; [|split; [|split]].
  - unfold clip. repeat case_cmp.
    + case_fmin K K_ref; case_fmax K K_ref; lra.
    + case_fmin K K_ref; case_fmax K K_ref; lra.
    + case_fmin K K_ref; case_fmax K K_ref; lra.
  - unfold clip.
    destruct (fabs_cases K) as [[HK EK]|[HK EK]]; rewrite EK; repeat case_cmp.
    + case_fmin K K_ref; [rewrite EK; lra|].
      destruct (fabs_cases K_ref) as [[? Er]|[? Er]]; rewrite Er; lra.
    + case_fmax K K_ref; [rewrite EK; lra|].
      destruct (fabs_cases K_ref) as [[? Er]|[? Er]]; rewrite Er; lra.
    + destruct (fabs_cases K_ref) as [[? Er]|[? Er]]; rewrite Er; lra.
    + case_fmin K K_ref; [rewrite EK; lra|].
      destruct (fabs_cases K_ref) as [[? Er]|[? Er]]; rewrite Er; lra.
    + case_fmax K K_ref; [rewrite EK; lra|].
      destruct (fabs_cases K_ref) as [[? Er]|[? Er]]; rewrite Er; lra.
    + destruct (fabs_cases K_ref) as [[? Er]|[? Er]]; rewrite Er; lra.
  - unfold clip. repeat case_cmp; try reflexivity.
    + case_fmin K_ref K_ref; reflexivity.
    + case_fmax K_ref K_ref; reflexivity.
  - unfold clip.
    destruct (K_ref >? 0) eqn:E1; [apply Qgtb_gt in E1 | apply Qgtb_le in E1].
    + assert (H1 : (- K_ref >? 0) = false) by (apply Qgtb_le; lra).
      assert (H2 : (- K_ref <? 0) = true) by (apply Qltb_lt; lra).
      rewrite H1, H2.
      case_fmax (- K) (- K_ref); case_fmin K K_ref; lra.
    + destruct (K_ref <? 0) eqn:E2; [apply Qltb_lt in E2 | apply Qltb_ge in E2].
      * assert (H1 : (- K_ref >? 0) = true) by (apply Qgtb_gt; lra).
        rewrite H1.
        case_fmin (- K) (- K_ref); case_fmax K K_ref; lra.
      * assert (H1 : (- K_ref >? 0) = false) by (apply Qgtb_le; lra).
        assert (H2 : (- K_ref <? 0) = false) by (apply Qltb_ge; lra).
        rewrite H1, H2. lra.
Qed.

(** ** grad *)

Lemma zrange_snoc (n : nat) : forall lo,
  zrange lo (S n) = zrange lo n ++ [(lo + Z.of_nat n)%Z].
Proof.
  induction n as [|n IH]; intro lo.
  - cbn. rewrite Z.add_0_r. reflexivity.
  - change (zrange lo (S (S n))) with (lo :: zrange (lo + 1) (S n)).
    rewrite IH. cbn [zrange app]. do 3 f_equal. lia.
Qed.

(** ** The envelope of ti_and_ca_filtering1D *)

Section Envelope_extrema.

Variables (X_in : plane) (L i j : Z).

Let init : window :=
  {| X_Emax := X_in i j; X_Emin := X_in i j;
     X_Wmax := X_in i j; X_Wmin := X_in i j |}.

(** After [n] turns of the loop over [l], the East extrema are those of
    the columns [j .. j+n] and the West extrema those of
    [j-L .. j-L+n-1] together with [j]; each is the value of a sample. *)
Lemma envelope_prefix (n : nat) :
  let w := fold_left (envelope_step X_in L i j) (zrange 0 n) init in
  (forall c, (j <= c <= j + Z.of_nat n)%Z ->
             X_Emin w <= X_in i c <= X_Emax w)
  /\ (forall c, (j - L <= c < j - L + Z.of_nat n)%Z \/ c = j ->
                X_Wmin w <= X_in i c <= X_Wmax w)
  /\ (exists c, (j <= c <= j + Z.of_nat n)%Z /\ X_Emax w = X_in i c)
  /\ (exists c, (j <= c <= j + Z.of_nat n)%Z /\ X_Emin w = X_in i c)
  /\ (exists c, ((j - L <= c < j - L + Z.of_nat n)%Z \/ c = j)
                /\ X_Wmax w = X_in i c)
  /\ (exists c, ((j - L <= c < j - L + Z.of_nat n)%Z \/ c = j)
                /\ X_Wmin w = X_in i c).
Proof.
  induction n as [|n IH]; cbv zeta.
  - cbn [zrange fold_left]. unfold init; cbn [X_Emax X_Emin X_Wmax X_Wmin].
    split; [|split].
    + intros c Hc. assert (c = j) by lia. subst c. split; lra.
    + intros c [Hc|Hc]; [lia|]. subst c. split; lra.
    + repeat split; exists j; (split; [first [lia | right; reflexivity] | reflexivity]).
  - rewrite zrange_snoc, fold_left_app. cbn [fold_left].
    cbv zeta in IH.
    set (w := fold_left (envelope_step X_in L i j) (zrange 0 n) init) in *.
    destruct IH as (HE & HW & (cE & HcE & EE) & (cE' & HcE' & EE')
                    & (cW & HcW & EW) & (cW' & HcW' & EW')).
    replace (0 + Z.of_nat n)%Z with (Z.of_nat n) by lia.
    unfold envelope_step; cbn [X_Emax X_Emin X_Wmax X_Wmin].
    split; [|split; [|split; [|split; [|split]]]].
    + intros c Hc.
      destruct (Z.eq_dec c (j + Z.of_nat n + 1)) as [->|Hne].
      * repeat case_cmp; split; lra.
      * assert (Hc' : (j <= c <= j + Z.of_nat n)%Z) by lia.
        specialize (HE c Hc'). repeat case_cmp; split; lra.
    + intros c Hc.
      destruct (Z.eq_dec c (j - L + Z.of_nat n)) as [->|Hne].
      * repeat case_cmp; split; lra.
      * assert (Hc' : (j - L <= c < j - L + Z.of_nat n)%Z \/ c = j) by lia.
        specialize (HW c Hc'). repeat case_cmp; split; lra.
    + case_cmp.
      * exists (j + Z.of_nat n + 1)%Z. split; [lia | reflexivity].
      * exists cE. split; [lia | exact EE].
    + case_cmp.
      * exists (j + Z.of_nat n + 1)%Z. split; [lia | reflexivity].
      * exists cE'. split; [lia | exact EE'].
    + case_cmp.
      * exists (j - L + Z.of_nat n)%Z. split; [left; lia | reflexivity].
      * exists cW. split; [destruct HcW; [left; lia | right; assumption] | exact EW].
    + case_cmp.
      * exists (j - L + Z.of_nat n)%Z. split; [left; lia | reflexivity].
      * exists cW'. split; [destruct HcW'; [left; lia | right; assumption] | exact EW'].
Qed.

(** When the loop ends: East is [j .. j+L], West is [j-L .. j]. *)
Lemma envelope_extrema :
  (0 <= L)%Z ->
  let w := envelope X_in L i j in
  (forall c, (j <= c <= j + L)%Z -> X_Emin w <= X_in i c <= X_Emax w)
  /\ (forall c, (j - L <= c <= j)%Z -> X_Wmin w <= X_in i c <= X_Wmax w)
  /\ (exists c, (j <= c <= j + L)%Z /\ X_Emax w = X_in i c)
  /\ (exists c, (j <= c <= j + L)%Z /\ X_Emin w = X_in i c)
  /\ (exists c, (j - L <= c <= j)%Z /\ X_Wmax w = X_in i c)
  /\ (exists c, (j - L <= c <= j)%Z /\ X_Wmin w = X_in i c).
Proof.
  intro HL. cbv zeta. unfold envelope, range.
  replace (L - 0)%Z with L by lia.
  pose proof (envelope_prefix (Z.to_nat L)) as H. cbv zeta in H.
  fold init.
  set (w := fold_left (envelope_step X_in L i j) (zrange 0 (Z.to_nat L)) init) in *.
  rewrite Z2Nat.id in H by exact HL.
  destruct H as (HE & HW & (cE & HcE & EE) & (cE' & HcE' & EE')
                 & (cW & HcW & EW) & (cW' & HcW' & EW')).
  split; [exact HE|].
  split; [intros c Hc; apply HW; lia|].
  split; [exists cE; split; assumption|].
  split; [exists cE'; split; assumption|].
  split; [exists cW; split; [lia | exact EW] | exists cW'; split; [lia | exact EW']].
Qed.

End Envelope_extrema.

(** X5.  At every pixel of the covered region, for [0 <= L < 2^30], the
    stored envelope is made of samples of the window: [X_max[i, j]] and
    [X_min[i, j]] are values of [X[i, .]] at columns of [[j-L, j+L]]. *)
Theorem envelope_made_of_window_samples (X_in G_in Y_in : plane) (M N L : Z)
    (rho : list Q) (alpha_X tau : Q) (mem : filter_mem)
    (K_hor0 K_TI_hor0 X_max0 X_min0 : plane) (i j : Z) :
  (0 <= L < 1073741824)%Z -> (L <= i < M - L)%Z -> (L <= j < N - L)%Z ->
  exists s,
    ti_and_ca_filtering1D X_in G_in Y_in M N L rho alpha_X tau mem
      K_hor0 K_TI_hor0 X_max0 X_min0 = Ok s
    /\ (exists c1 c2,
          (j - L <= c1 <= j + L)%Z /\ (j - L <= c2 <= j + L)%Z
          /\ X_max s i j = X_in i c1 /\ X_min s i j = X_in i c2).
Proof.
  intros HL Hi Hj. eexists. split.
  - apply ti_and_ca_filtering1D_Ok. exact HL.
  - match goal with |- (exists c1 c2, _ /\ _ /\ X_max ?s _ _ = _ /\ _) =>
      assert (Hd : pixel_done X_in G_in L rho mem s i j)
        by (apply filter_loops_done; [lia | assumption | assumption]);
      set (st := s) in *
    end.
    destruct Hd as (Hmax & Hmin & _). rewrite Hmax, Hmin.
    assert (HL0 : (0 <= L)%Z) by lia.
    destruct (envelope_extrema X_in L i j HL0)
      as (_ & _ & (cE & HcE & EE) & (cE' & HcE' & EE')
          & (cW & HcW & EW) & (cW' & HcW' & EW')).
    cbv zeta in *.
    set (w := envelope X_in L i j) in *.
    unfold select_couple.
    destruct (X_Emax w - X_Wmin w >=? X_Wmax w - X_Emin w); cbn [fst snd].
    + exists cE, cW'. repeat split; try lia; assumption.
    + exists cW, cE'. repeat split; try lia; assumption.
Qed.

Lemma envelope_made_of_window_samples_witness :
  exists s,
    ti_and_ca_filtering1D ramp3 ramp3 ramp3 3 3 1
      rho_default alpha_default tau_default zero_filter_mem
      zeros zeros zeros zeros = Ok s
    /\ (exists c1 c2,
          (1 - 1 <= c1 <= 1 + 1)%Z /\ (1 - 1 <= c2 <= 1 + 1)%Z
          /\ X_max s 1%Z 1%Z = ramp3 1%Z c1 /\ X_min s 1%Z 1%Z = ramp3 1%Z c2).
Proof.
  apply (envelope_made_of_window_samples ramp3 ramp3 ramp3 3 3 1
           rho_default alpha_default tau_default zero_filter_mem
           zeros zeros zeros zeros 1 1); lia.
Defined.

(** ** Cells the loops of ti_and_ca_filtering1D do not reach *)

(** X6.  For [0 <= L < 2^30], a cell outside the region [L <= i < M - L],
    [L <= j < N - L] is never written by ti_and_ca_filtering1D: the four
    output blocks still hold there what [np.empty] returned. *)
Theorem border_cells_keep_block_content (X_in G_in Y_in : plane) (M N L : Z)
    (rho : list Q) (alpha_X tau : Q) (mem : filter_mem)
    (K_hor0 K_TI_hor0 X_max0 X_min0 : plane) (i j : Z) :
  (0 <= L < 1073741824)%Z ->
  ~ ((L <= i < M - L)%Z /\ (L <= j < N - L)%Z) ->
  exists s,
    ti_and_ca_filtering1D X_in G_in Y_in M N L rho alpha_X tau mem
      K_hor0 K_TI_hor0 X_max0 X_min0 = Ok s
    /\ K_hor s i j = K_hor0 i j
    /\ K_TI_hor s i j = K_TI_hor0 i j
    /\ X_max s i j = X_max0 i j
    /\ X_min s i j = X_min0 i j.
Proof.
  intros HL Hout. eexists. split.
  - apply ti_and_ca_filtering1D_Ok. exact HL.
  - exact (filter_loops_border X_in G_in Y_in M N L rho alpha_X tau mem
             (grad X_in M N (e_grad_X mem)) (grad G_in M N (e_grad_G mem))
             {| K_hor := K_hor0; K_TI_hor := K_TI_hor0;
                X_max := X_max0; X_min := X_min0; K_TI := e_K_TI mem |}
             i j Hout).
Qed.

Lemma border_cells_keep_block_content_witness :
  exists s,
    ti_and_ca_filtering1D ramp3 ramp3 ramp3 3 3 1
      rho_default alpha_default tau_default zero_filter_mem
      ones ones ones ones = Ok s
    /\ K_hor s 0%Z 1%Z = ones 0%Z 1%Z
    /\ K_TI_hor s 0%Z 1%Z = ones 0%Z 1%Z
    /\ X_max s 0%Z 1%Z = ones 0%Z 1%Z
    /\ X_min s 0%Z 1%Z = ones 0%Z 1%Z.
Proof.
  apply (border_cells_keep_block_content ramp3 ramp3 ramp3 3 3 1
           rho_default alpha_default tau_default zero_filter_mem
           ones ones ones ones 0 1); lia.
Defined.



(** ** The TI stage: a half-window of zero, and what it depends on *)

(** X8.  With [L = 0] the window is the pixel alone and the TI stage is the
    identity: at every pixel the envelope is [X[i, j]] itself and
    [K_TI_hor[i, j]] is the raw chroma [X[i, j] - G[i, j]], whatever
    [rho] is. *)
Theorem zero_half_window_TI_is_raw_chroma (X_in G_in Y_in : plane) (M N : Z)
    (rho : list Q) (alpha_X tau : Q) (mem : filter_mem)
    (K_hor0 K_TI_hor0 X_max0 X_min0 : plane) (i j : Z) :
  (0 <= i < M)%Z -> (0 <= j < N)%Z ->
  exists s,
    ti_and_ca_filtering1D X_in G_in Y_in M N 0 rho alpha_X tau mem
      K_hor0 K_TI_hor0 X_max0 X_min0 = Ok s
    /\ X_max s i j = X_in i j
    /\ X_min s i j = X_in i j
    /\ K_TI_hor s i j == X_in i j - G_in i j.
Proof.
  intros Hi Hj. eexists. split.
  - apply ti_and_ca_filtering1D_Ok. lia.
  - match goal with |- X_max ?s _ _ = _ /\ _ =>
      assert (Hd : pixel_done X_in G_in 0 rho mem s i j)
        by (apply filter_loops_done; lia);
      set (st := s) in *
    end.
    destruct Hd as (Hmax & Hmin & Hk). rewrite Hmax, Hmin, Hk.
    assert (Hsel : select_couple (envelope X_in 0 i j) = (X_in i j, X_in i j)).
    { unfold envelope. change (range 0 0) with (@nil Z). cbn [fold_left].
      unfold select_couple. cbn [X_Emax X_Emin X_Wmax X_Wmin].
      destruct (X_in i j - X_in i j >=? X_in i j - X_in i j); reflexivity. }
    rewrite Hsel. cbn [fst snd].
    split; [reflexivity | split; [reflexivity|]].
    unfold K_TI_offset. replace (j + 0 - 0)%Z with j by lia. cbv zeta.
    destruct (X_in i j >? G_in i j) eqn:Hb;
      [apply Qgtb_gt in Hb | apply Qgtb_le in Hb].
    + case_fmax (X_in i j) (G_in i j); repeat case_cmp; lra.
    + case_fmin (X_in i j) (G_in i j); repeat case_cmp; lra.
Qed.

Lemma zero_half_window_TI_is_raw_chroma_witness :
  exists s,
    ti_and_ca_filtering1D flat34 spot34 (luma flat34 spot34 flat34) 3 4 0
      rho_default alpha_default tau_default zero_filter_mem
      zeros zeros zeros zeros = Ok s
    /\ X_max s 1%Z 1%Z = flat34 1%Z 1%Z
    /\ X_min s 1%Z 1%Z = flat34 1%Z 1%Z
    /\ K_TI_hor s 1%Z 1%Z == flat34 1%Z 1%Z - spot34 1%Z 1%Z.
Proof.
  apply (zero_half_window_TI_is_raw_chroma flat34 spot34
           (luma flat34 spot34 flat34) 3 4
           rho_default alpha_default tau_default zero_filter_mem
           zeros zeros zeros zeros 1 1); lia.
Defined.

Lemma rho_at_indep (rho : list Q) (mem1 mem2 : filter_mem) (k : nat) :
  (k < length rho)%nat -> rho_at rho mem1 k = rho_at rho mem2 k.
Proof. intro H. unfold rho_at. apply nth_indep. exact H. Qed.

(** X9.  With the three coefficients of [rho] present and
    [0 <= L < 2^30], the TI outputs of the covered region, [X_max], [X_min]
    and [K_TI_hor], are functions of [X], [G], [L] and [rho] alone: they do
    not depend on what [np.empty] returned, nor on the luma plane,
    [alpha_X] or [tau]. *)
Theorem TI_outputs_ignore_block_content (X_in G_in : plane) (M N L : Z)
    (rho : list Q) (Y1 Y2 : plane) (alpha1 alpha2 tau1 tau2 : Q)
    (mem1 mem2 : filter_mem) (K1 T1 A1 B1 K2 T2 A2 B2 : plane) (i j : Z) :
  (3 <= length rho)%nat ->
  (0 <= L < 1073741824)%Z -> (L <= i < M - L)%Z -> (L <= j < N - L)%Z ->
  exists s1 s2,
    ti_and_ca_filtering1D X_in G_in Y1 M N L rho alpha1 tau1 mem1
      K1 T1 A1 B1 = Ok s1
    /\ ti_and_ca_filtering1D X_in G_in Y2 M N L rho alpha2 tau2 mem2
         K2 T2 A2 B2 = Ok s2
    /\ X_max s1 i j = X_max s2 i j
    /\ X_min s1 i j = X_min s2 i j
    /\ K_TI_hor s1 i j = K_TI_hor s2 i j.
Proof.
  intros Hrho HL Hi Hj. eexists. eexists.
  split; [apply ti_and_ca_filtering1D_Ok; exact HL|].
  split; [apply ti_and_ca_filtering1D_Ok; exact HL|].
  match goal with |- X_max ?a _ _ = X_max ?b _ _ /\ _ =>
    assert (Hd1 : pixel_done X_in G_in L rho mem1 a i j)
      by (apply filter_loops_done; [lia | assumption | assumption]);
    assert (Hd2 : pixel_done X_in G_in L rho mem2 b i j)
      by (apply filter_loops_done; [lia | assumption | assumption]);
    set (st1 := a) in *; set (st2 := b) in *
  end.
  destruct Hd1 as (Hmax1 & Hmin1 & Hk1), Hd2 as (Hmax2 & Hmin2 & Hk2).
  rewrite Hmax1, Hmin1, Hk1, Hmax2, Hmin2, Hk2.
  repeat split.
  unfold K_TI_offset.
  rewrite !(rho_at_indep rho mem1 mem2) by lia. reflexivity.
Qed.

(** Without the bound on [L] the call does not return: at [L = 2^30] a
    pixel is covered only in a plane of more than [2^31] rows and columns,
    and [LL] wraps to a negative [int]. *)
Lemma TI_outputs_need_the_bound :
  (0 <= 1073741824)%Z
  /\ (1073741824 <= 1073741824 < 2147483649 - 1073741824)%Z
  /\ ti_and_ca_filtering1D flat34 spot34 zeros 2147483649 2147483649
       1073741824 rho_default alpha_default tau_default zero_filter_mem
       zeros zeros zeros zeros
     = Err ValueError_negative_dimensions.
Proof.
  split; [lia|]. split; [lia|].
  apply ti_and_ca_filtering1D_Err. right. unfold INT_MAX. lia.
Qed.

Lemma TI_outputs_ignore_block_content_witness :
  exists s1 s2,
    ti_and_ca_filtering1D flat34 spot34 zeros 3 4 1 rho_default
      alpha_default tau_default zero_filter_mem zeros zeros zeros zeros
    = Ok s1
    /\ ti_and_ca_filtering1D flat34 spot34 ones 3 4 1 rho_default
         1 0 zero_filter_mem ones ones ones ones = Ok s2
    /\ X_max s1 1%Z 2%Z = X_max s2 1%Z 2%Z
    /\ X_min s1 1%Z 2%Z = X_min s2 1%Z 2%Z
    /\ K_TI_hor s1 1%Z 2%Z = K_TI_hor s2 1%Z 2%Z.
Proof.
  apply (TI_outputs_ignore_block_content flat34 spot34 3 4 1 rho_default
           zeros ones alpha_default 1 tau_default 0
           zero_filter_mem zero_filter_mem
           zeros zeros zeros zeros ones ones ones ones 1 2);
    simpl; lia.
Defined.

(** ** arbitration: the blend *)

Lemma alpha_K_range (gamma_1 gamma_2 contrast xmax xmin : Q) :
  0 < gamma_2 -> gamma_2 <= gamma_1 ->
  0 <= alpha_K gamma_1 gamma_2 contrast xmax xmin <= 1.
Proof.
  intros H2 H1.
  pose proof (alpha_K_denominator_pos gamma_1 gamma_2 xmax xmin H2 H1) as Hd.
  assert (Hq : 0 <= fmax contrast 0 / alpha_K_denominator gamma_1 gamma_2 xmax xmin).
  { apply Qdiv_nonneg; [|exact Hd]. case_fmax contrast 0; lra. }
  unfold alpha_K.
  match goal with |- 0 <= fmin ?q 1 <= 1 => case_fmin q 1 end; lra.
Qed.

Lemma alpha_K_denominator_le (gamma_1 gamma_2 xmax xmin : Q) :
  alpha_K_denominator gamma_1 gamma_2 xmax xmin <= gamma_1.
Proof.
  unfold alpha_K_denominator.
  match goal with |- fmin ?a ?b <= _ => case_fmin a b end; lra.
Qed.

Lemma blend_sign (a t k : Q) :
  0 <= a <= 1 ->
  (0 <= t -> 0 <= k -> 0 <= (1 - a) * t + a * k)
  /\ (t <= 0 -> k <= 0 -> (1 - a) * t + a * k <= 0).
Proof.
  intros [Ha0 Ha1]. split; intros Ht Hk.
  - assert (Hp : 0 <= (1 - a) * t) by (apply Qmult_le_0_compat; lra).
    assert (Hq : 0 <= a * k) by (apply Qmult_le_0_compat; lra).
    lra.
  - assert (Hp : 0 <= (1 - a) * (- t)) by (apply Qmult_le_0_compat; lra).
    assert (Hq : 0 <= a * (- k)) by (apply Qmult_le_0_compat; lra).
    lra.
Qed.

(** X10.  For [gamma_1 >= gamma_2 > 0] the arbitration never introduces a
    chroma of a sign that neither estimate has: where the TI chroma and
    the FC chroma are both non-negative so is the arbitrated chroma, and
    where both are non-positive so is the arbitrated chroma. *)
Theorem arbitration_keeps_common_sign
    (K K_TI_in X G X_max_in X_min_in : plane) (beta_X : Q) (L_hor L_ver : Z)
    (gamma_1 gamma_2 : Q) (M N : Z) (mem : arb_mem) (i j : Z) :
  0 < gamma_2 -> gamma_2 <= gamma_1 ->
  (0 <= K_TI_in i j /\ 0 <= K i j ->
   0 <= arbitration K K_TI_in X G X_max_in X_min_in beta_X L_hor L_ver
          gamma_1 gamma_2 M N mem i j)
  /\ (K_TI_in i j <= 0 /\ K i j <= 0 ->
      arbitration K K_TI_in X G X_max_in X_min_in beta_X L_hor L_ver
        gamma_1 gamma_2 M N mem i j <= 0).
Proof.
  intros H2 H1. unfold arbitration. cbv zeta.
  match goal with |- (_ -> 0 <= (1 - ?a) * _ + _) /\ _ =>
    destruct (blend_sign a (K_TI_in i j) (K i j)) as [Hpos Hneg];
      [apply alpha_K_range; assumption|]
  end.
  split; intros [Ht Hk]; [apply Hpos | apply Hneg]; assumption.
Qed.

Lemma arbitration_keeps_common_sign_witness :
  (0 <= zeros 1%Z 1%Z /\ 0 <= ones 1%Z 1%Z ->
   0 <= arbitration ones zeros step3 step3 ones zeros beta_default 1 1
          gamma_1_default gamma_2_default 3 3 zero_arb_mem 1%Z 1%Z)
  /\ (zeros 1%Z 1%Z <= 0 /\ ones 1%Z 1%Z <= 0 ->
      arbitration ones zeros step3 step3 ones zeros beta_default 1 1
        gamma_1_default gamma_2_default 3 3 zero_arb_mem 1%Z 1%Z <= 0).
Proof.
  apply (arbitration_keeps_common_sign ones zeros step3 step3 ones zeros
           beta_default 1 1 gamma_1_default gamma_2_default 3 3
           zero_arb_mem 1 1).
  - reflexivity.
  - unfold Qle; simpl; lia.
Defined.

(** X11.  Where the merged contrast is not positive the arbitration
    returns the TI chroma unchanged (for [gamma_1 >= gamma_2 > 0]). *)
Theorem arbitration_low_contrast_keeps_TI
    (K K_TI_in X G X_max_in X_min_in : plane) (beta_X : Q) (L_hor L_ver : Z)
    (gamma_1 gamma_2 : Q) (M N : Z) (mem : arb_mem) (i j : Z) :
  0 < gamma_2 -> gamma_2 <= gamma_1 ->
  X_contrast X G beta_X L_hor L_ver M N mem i j <= 0 ->
  arbitration K K_TI_in X G X_max_in X_min_in beta_X L_hor L_ver
    gamma_1 gamma_2 M N mem i j == K_TI_in i j.
Proof.
  intros H2 H1 Hc. unfold arbitration. cbv zeta.
  set (c := X_contrast X G beta_X L_hor L_ver M N mem i j) in *.
  assert (Ha : alpha_K gamma_1 gamma_2 c (X_max_in i j) (X_min_in i j) == 0).
  { unfold alpha_K.
    assert (Hq : fmax c 0
                 / alpha_K_denominator gamma_1 gamma_2 (X_max_in i j) (X_min_in i j)
                 == 0).
    { case_fmax c 0.
      - assert (Hz : c == 0) by lra. rewrite Hz. unfold Qdiv. ring.
      - unfold Qdiv. ring. }
    match goal with |- fmin ?q 1 == 0 => case_fmin q 1 end; lra. }
  rewrite Ha. ring.
Qed.

Lemma arbitration_low_contrast_keeps_TI_witness :
  arbitration ones zeros zeros zeros ones zeros beta_default 1 1
    gamma_1_default gamma_2_default 3 3 zero_arb_mem 1%Z 1%Z == zeros 1%Z 1%Z.
Proof.
  apply (arbitration_low_contrast_keeps_TI ones zeros zeros zeros ones zeros
           beta_default 1 1 gamma_1_default gamma_2_default 3 3
           zero_arb_mem 1 1).
  - reflexivity.
  - unfold Qle; simpl; lia.
  - vm_compute. discriminate.
Defined.

(** X12.  Where the merged contrast reaches [gamma_1] the arbitration
    returns the FC chroma unchanged (for [gamma_1 >= gamma_2 > 0]). *)
Theorem arbitration_high_contrast_keeps_FC
    (K K_TI_in X G X_max_in X_min_in : plane) (beta_X : Q) (L_hor L_ver : Z)
    (gamma_1 gamma_2 : Q) (M N : Z) (mem : arb_mem) (i j : Z) :
  0 < gamma_2 -> gamma_2 <= gamma_1 ->
  gamma_1 <= X_contrast X G beta_X L_hor L_ver M N mem i j ->
  arbitration K K_TI_in X G X_max_in X_min_in beta_X L_hor L_ver
    gamma_1 gamma_2 M N mem i j == K i j.
Proof.
  intros H2 H1 Hc. unfold arbitration. cbv zeta.
  set (c := X_contrast X G beta_X L_hor L_ver M N mem i j) in *.
  assert (Ha : alpha_K gamma_1 gamma_2 c (X_max_in i j) (X_min_in i j) == 1).
  { unfold alpha_K.
    pose proof (alpha_K_denominator_pos gamma_1 gamma_2
                  (X_max_in i j) (X_min_in i j) H2 H1) as Hd.
    pose proof (alpha_K_denominator_le gamma_1 gamma_2
                  (X_max_in i j) (X_min_in i j)) as Hle.
    set (d := alpha_K_denominator gamma_1 gamma_2 (X_max_in i j) (X_min_in i j)) in *.
    assert (Hq : 1 <= fmax c 0 / d).
    { apply Qle_shift_div_l; [exact Hd|]. case_fmax c 0; lra. }
    match goal with |- fmin ?q 1 == 1 => case_fmin q 1 end; lra. }
  rewrite Ha. ring.
Qed.

Lemma arbitration_high_contrast_keeps_FC_witness :
  arbitration ones zeros ramp3 ramp3 ones zeros beta_default 1 1
    gamma_1_default gamma_2_default 3 3 zero_arb_mem 1%Z 1%Z == ones 1%Z 1%Z.
Proof.
  apply (arbitration_high_contrast_keeps_FC ones zeros ramp3 ramp3 ones zeros
           beta_default 1 1 gamma_1_default gamma_2_default 3 3
           zero_arb_mem 1 1).
  - reflexivity.
  - unfold Qle; simpl; lia.
  - vm_compute. discriminate.
Defined.

(** ** arbitration: the contrast planes *)

(** X13.  The merged contrast (Eq. (21)) is the larger of the horizontal
    contrast and the transposed vertical contrast: it is at least each of
    them and equal to one of them, at every pixel. *)
Theorem X_contrast_is_axis_maximum (X G : plane) (beta_X : Q)
    (L_hor L_ver M N : Z) (mem : arb_mem) (i j : Z) :
  X_contrast_hor X G beta_X L_hor M N mem i j
    <= X_contrast X G beta_X L_hor L_ver M N mem i j
  /\ X_contrast_ver X G beta_X L_ver M N mem j i
       <= X_contrast X G beta_X L_hor L_ver M N mem i j
  /\ (X_contrast X G beta_X L_hor L_ver M N mem i j
        = X_contrast_hor X G beta_X L_hor M N mem i j
      \/ X_contrast X G beta_X L_hor L_ver M N mem i j
           = X_contrast_ver X G beta_X L_ver M N mem j i).
Proof.
  unfold X_contrast, transpose.
  set (h := X_contrast_hor X G beta_X L_hor M N mem i j).
  set (v := X_contrast_ver X G beta_X L_ver M N mem j i).
  case_cmp; repeat split; try lra; auto.
Qed.

(** X14.  The value either contrast loop stores is never negative,
    whatever the planes, the half-window and [beta_X] are: the running East
    maximum never goes below the center sample and the running West
    minimum never above it. *)
Theorem contrast_pixels_nonnegative (beta_X : Q) (X G : plane) (L i j : Z) :
  0 <= contrast_hor_pixel beta_X X G L i j
  /\ 0 <= contrast_ver_pixel beta_X X G L i j.
Proof.
  assert (Hsel : forall w : window,
            X_Wmin w <= X i j <= X_Emax w ->
            0 <= fst (select_couple w) - snd (select_couple w)).
  { intros w [H1 H2]. unfold select_couple. case_cmp; cbn [fst snd]; lra. }
  split.
  - unfold contrast_hor_pixel.
    match goal with |- context [fold_left ?f ?l ?w0] =>
      assert (Hw : X_Wmin (fold_left f l w0) <= X i j
                   <= X_Emax (fold_left f l w0))
    end.
    { apply (loop_invariant _ (fun w => X_Wmin w <= X i j <= X_Emax w)).
      - intros w l _ [H1 H2]. unfold contrast_hor_step.
        cbn [X_Emax X_Wmin]. repeat case_cmp; split; lra.
      - cbn. split; lra. }
    specialize (Hsel _ Hw).
    destruct (select_couple _) as [a b]. exact Hsel.
  - unfold contrast_ver_pixel.
    match goal with |- context [fold_left ?f ?l ?w0] =>
      assert (Hw : X_Wmin (fold_left f l w0) <= X i j
                   <= X_Emax (fold_left f l w0))
    end.
    { apply (loop_invariant _ (fun w => X_Wmin w <= X i j <= X_Emax w)).
      - intros w l _ [H1 H2]. unfold contrast_ver_step.
        cbn [X_Emax X_Wmin]. repeat case_cmp; split; lra.
      - cbn. split; lra. }
    specialize (Hsel _ Hw).
    destruct (select_couple _) as [a b]. exact Hsel.
Qed.

(** ** correct_chromatic_aberration: when a call fails *)



(** ** The rows of ti_and_ca_filtering1D are independent *)

Lemma row_agree_refl (i : Z) (s : filter_state) : row_agree i s s.
Proof. intro b. repeat split. Qed.

Lemma row_agree_sym (i : Z) (s1 s2 : filter_state) :
  row_agree i s1 s2 -> row_agree i s2 s1.
Proof.
  intros H b. destruct (H b) as (H1 & H2 & H3 & H4 & H5).
  repeat split; symmetry; assumption.
Qed.

Lemma row_agree_trans (i : Z) (s1 s2 s3 : filter_state) :
  row_agree i s1 s2 -> row_agree i s2 s3 -> row_agree i s1 s3.
Proof.
  intros H H' b.
  destruct (H b) as (H1 & H2 & H3 & H4 & H5).
  destruct (H' b) as (H1' & H2' & H3' & H4' & H5').
  repeat split; etransitivity; eassumption.
Qed.

Lemma loop_relation {S : Type} (f : S -> Z -> S) (R : S -> S -> Prop)
    (l : list Z) :
  (forall s1 s2 a, R s1 s2 -> R (f s1 a) (f s2 a)) ->
  forall s1 s2, R s1 s2 -> R (fold_left f l s1) (fold_left f l s2).
Proof.
  intro Hstep. induction l as [|a l IH]; intros s1 s2 H; simpl; [exact H|].
  apply IH. apply Hstep. exact H.
Qed.

Section Rows.

Variables (X_in G_in Y_in : plane) (N L : Z).
Variables (rho : list Q) (alpha_X tau : Q).
Variable mem : filter_mem.
Variables (grad_X grad_G : plane).

Let step := offset_step X_in G_in Y_in L rho alpha_X tau mem grad_X grad_G.
Let pixel := filter_pixel X_in G_in Y_in L rho alpha_X tau mem grad_X grad_G.
Let row := filter_row X_in G_in Y_in N L rho alpha_X tau mem grad_X grad_G.

Lemma offset_step_agree (i j : Z) (xmax xmin : Q) (a1 a2 : acc) (l : Z) :
  acc_agree a1 a2 ->
  acc_agree (step i j xmax xmin a1 l) (step i j xmax xmin a2 l).
Proof.
  intros (Hrow & Hacc & Hw).
  unfold acc_agree, step, offset_step, set_cell.
  cbn [K_TI_row K_acc W_K_sum].
  rewrite Hacc, Hw, !Hrow.
  repeat split. intro b. rewrite Hrow. reflexivity.
Qed.

(** A turn of the pixel loop of row [i] reads row [i] of the blocks only. *)
Lemma filter_pixel_row_agree (i j : Z) (s1 s2 : filter_state) :
  row_agree i s1 s2 -> row_agree i (pixel i s1 j) (pixel i s2 j).
Proof.
  intro H. unfold pixel, filter_pixel.
  destruct (select_couple (envelope X_in L i j)) as [xmax xmin].
  match goal with
  | |- row_agree _ {| K_hor := upd _ _ _ (K_acc ?a1 / _) |}
                   {| K_hor := upd _ _ _ (K_acc ?a2 / _) |} =>
      assert (Ha : acc_agree a1 a2)
  end.
  { apply (loop_relation _ acc_agree).
    - intros a1 a2 l. apply offset_step_agree.
    - unfold acc_agree. cbn [K_TI_row K_acc W_K_sum].
      split; [intro b; apply (H b) | split; [apply (H j) | reflexivity]]. }
  destruct Ha as (Hrow & Hacc & Hw).
  intro b. destruct (H b) as (H1 & H2 & H3 & H4 & H5).
  cbn [K_hor K_TI_hor X_max X_min K_TI]. unfold upd, upd_row.
  rewrite Hacc, Hw, !Hrow, H1, H2, H3, H4, H5.
  repeat split.
Qed.

(** ... and writes row [i] only. *)
Lemma filter_pixel_other_rows (i i' j : Z) (s : filter_state) :
  i' <> i -> row_agree i' (pixel i s j) s.
Proof.
  intros Hne b. unfold pixel, filter_pixel.
  destruct (select_couple (envelope X_in L i j)) as [xmax xmin].
  cbn [K_hor K_TI_hor X_max X_min K_TI]. unfold upd, upd_row.
  apply Z.eqb_neq in Hne. rewrite Hne. cbn [andb].
  repeat split.
Qed.

Lemma filter_row_row_agree (i : Z) (s1 s2 : filter_state) :
  row_agree i s1 s2 -> row_agree i (row s1 i) (row s2 i).
Proof.
  intro H. unfold row, filter_row.
  apply (loop_relation _ (row_agree i)); [|exact H].
  intros t1 t2 j. apply filter_pixel_row_agree.
Qed.

Lemma filter_row_other_rows (i i' : Z) (s : filter_state) :
  i' <> i -> row_agree i' (row s i) s.
Proof.
  intro Hne. unfold row, filter_row.
  apply (loop_invariant _ (fun t => row_agree i' t s)); [|apply row_agree_refl].
  intros t j _ Ht.
  apply (row_agree_trans i' _ t); [|exact Ht].
  apply filter_pixel_other_rows. exact Hne.
Qed.

Lemma filter_row_state_eq (i : Z) (s1 s2 : filter_state) :
  state_eq s1 s2 -> state_eq (row s1 i) (row s2 i).
Proof.
  intros H a. destruct (Z.eq_dec a i) as [->|Hne].
  - apply filter_row_row_agree. apply H.
  - apply (row_agree_trans a _ s1); [apply filter_row_other_rows; exact Hne|].
    apply (row_agree_trans a _ s2); [apply H|].
    apply row_agree_sym. apply filter_row_other_rows. exact Hne.
Qed.

Lemma filter_row_commute (i i' : Z) (s : filter_state) :
  state_eq (row (row s i) i') (row (row s i') i).
Proof.
  destruct (Z.eq_dec i i') as [->|Hne]; [intro a; apply row_agree_refl|].
  intro a.
  destruct (Z.eq_dec a i) as [->|Hai]; [|destruct (Z.eq_dec a i') as [->|Hai']].
  - apply (row_agree_trans i _ (row s i)).
    + apply filter_row_other_rows. exact Hne.
    + apply filter_row_row_agree. apply row_agree_sym.
      apply filter_row_other_rows. exact Hne.
  - apply (row_agree_trans i' _ (row s i')).
    + apply filter_row_row_agree. apply filter_row_other_rows. congruence.
    + apply row_agree_sym. apply filter_row_other_rows. congruence.
  - apply (row_agree_trans a _ (row s i));
      [apply filter_row_other_rows; exact Hai'|].
    apply (row_agree_trans a _ s); [apply filter_row_other_rows; exact Hai|].
    apply row_agree_sym.
    apply (row_agree_trans a _ (row s i'));
      [apply filter_row_other_rows; exact Hai|].
    apply filter_row_other_rows. exact Hai'.
Qed.

Lemma filter_rows_permutation (l l' : list Z) :
  Permutation l l' ->
  forall s1 s2, state_eq s1 s2 ->
  state_eq (fold_left row l s1) (fold_left row l' s2).
Proof.
  induction 1 as [|x l l' _ IH|x y l|l l' l'' _ IH1 _ IH2]; intros s1 s2 H.
  - exact H.
  - cbn [fold_left]. apply IH. apply filter_row_state_eq. exact H.
  - cbn [fold_left].
    apply (loop_relation _ state_eq).
    + intros t1 t2 a. apply filter_row_state_eq.
    + intro a.
      apply (row_agree_trans a _ (row (row s1 x) y)).
      * apply filter_row_commute.
      * apply filter_row_state_eq. apply filter_row_state_eq. exact H.
  - intro a. apply (row_agree_trans a _ (fold_left row l' s2)).
    + apply IH1. exact H.
    + apply IH2. intro a'. apply row_agree_refl.
Qed.

End Rows.

(** X18.  The iterations of the parallel loop over the rows do not
    interfere: running the row bodies of ti_and_ca_filtering1D in any
    order leaves, in every cell of the four output blocks and of the
    [K_TI] work block, the value the sequential order leaves there. *)
Theorem rows_can_run_in_any_order (X_in G_in Y_in : plane) (M N L : Z)
    (rho : list Q) (alpha_X tau : Q) (mem : filter_mem)
    (grad_X grad_G : plane) (schedule : list Z) (s : filter_state) :
  Permutation schedule (range L (M - L)) ->
  state_eq
    (fold_left
       (filter_row X_in G_in Y_in N L rho alpha_X tau mem grad_X grad_G)
       schedule s)
    (fold_left
       (filter_row X_in G_in Y_in N L rho alpha_X tau mem grad_X grad_G)
       (range L (M - L)) s).
Proof.
  intro Hperm. apply filter_rows_permutation; [exact Hperm|].
  intro a. apply row_agree_refl.
Qed.

Lemma rows_can_run_in_any_order_witness :
  state_eq
    (fold_left
       (filter_row ramp3 ramp3 ramp3 3 1 rho_default alpha_default tau_default
          zero_filter_mem zeros zeros)
       [2%Z; 1%Z]
       {| K_hor := ones; K_TI_hor := ones; X_max := ones; X_min := ones;
          K_TI := ones |})
    (fold_left
       (filter_row ramp3 ramp3 ramp3 3 1 rho_default alpha_default tau_default
          zero_filter_mem zeros zeros)
       (range 1 (4 - 1))
       {| K_hor := ones; K_TI_hor := ones; X_max := ones; X_min := ones;
          K_TI := ones |}).
Proof.
  apply (rows_can_run_in_any_order ramp3 ramp3 ramp3 4 3 1 rho_default
           alpha_default tau_default zero_filter_mem zeros zeros [2%Z; 1%Z]).
  simpl. apply perm_swap.
Defined.

(** ** The border of the output image *)

Lemma in_range_spec (lo hi x : Z) :
  in_range lo hi x = true <-> (lo <= x < hi)%Z.
Proof.
  unfold in_range. rewrite andb_true_iff, Z.leb_le, Z.ltb_lt. tauto.
Qed.

Lemma not_covered (lo hi lo' hi' x y : Z) :
  ~ ((lo <= x < hi)%Z /\ (lo' <= y < hi')%Z) ->
  (in_range lo hi x && in_range lo' hi' y)%bool = false.
Proof.
  intro H.
  destruct (in_range lo hi x && in_range lo' hi' y)%bool eqn:E; [|reflexivity].
  apply andb_true_iff in E. rewrite !in_range_spec in E. contradiction.
Qed.

Lemma run_filter_border (X_in G_in Y_in : plane) (M N L : Z) (rho : list Q)
    (alpha_X tau : Q) (m : call_mem) (i j : Z) :
  (0 <= L < 1073741824)%Z ->
  ~ ((L <= i < M - L)%Z /\ (L <= j < N - L)%Z) ->
  exists s,
    run_filter X_in G_in Y_in M N L rho alpha_X tau m = Ok s
    /\ K_hor s i j = o_K m i j
    /\ K_TI_hor s i j = o_K_TI m i j
    /\ X_max s i j = o_max m i j
    /\ X_min s i j = o_min m i j.
Proof.
  intros HL Hout. unfold run_filter. eexists. split.
  - apply ti_and_ca_filtering1D_Ok. exact HL.
  - exact (filter_loops_border X_in G_in Y_in M N L rho alpha_X tau (scratch m)
             (grad X_in M N (e_grad_X (scratch m)))
             (grad G_in M N (e_grad_G (scratch m)))
             {| K_hor := o_K m; K_TI_hor := o_K_TI m;
                X_max := o_max m; X_min := o_min m;
                K_TI := e_K_TI (scratch m) |}
             i j Hout).
Qed.

(** X19.  For [0 <= L_hor, L_ver < 2^30], at a pixel that neither pass
    covers, the arbitrated chroma does not depend on the image: two calls
    on different images of the same shape, with the same parameters and
    the same content of the [np.empty] blocks, return the same [K_rout]
    and [K_bout] there.  The chroma of the border is made of that content
    alone. *)
Theorem border_chroma_ignores_the_image (I1 I2 : image) (L_hor L_ver : Z)
    (rho : list Q) (tau alpha_R alpha_B beta_R beta_B gamma_1 gamma_2 : Q)
    (u : uninit) (i j : Z) :
  shape0 I1 = shape0 I2 -> shape1 I1 = shape1 I2 ->
  (0 <= L_hor < 1073741824)%Z -> (0 <= L_ver < 1073741824)%Z ->
  ~ ((L_hor <= i < shape0 I1 - L_hor)%Z /\ (L_hor <= j < shape1 I1 - L_hor)%Z) ->
  ~ ((L_ver <= j < shape1 I1 - L_ver)%Z /\ (L_ver <= i < shape0 I1 - L_ver)%Z) ->
  exists K1 K2,
    arbitrated_chroma I1 L_hor L_ver rho tau alpha_R alpha_B
      beta_R beta_B gamma_1 gamma_2 u = Ok K1
    /\ arbitrated_chroma I2 L_hor L_ver rho tau alpha_R alpha_B
         beta_R beta_B gamma_1 gamma_2 u = Ok K2
    /\ fst K1 i j = fst K2 i j
    /\ snd K1 i j = snd K2 i j.
Proof.
  intros HM HN Hh Hv Hout_h Hout_v.
  assert (Hout_h2 : ~ ((L_hor <= i < shape0 I2 - L_hor)%Z
                       /\ (L_hor <= j < shape1 I2 - L_hor)%Z))
    by (rewrite <- HM, <- HN; exact Hout_h).
  assert (Hout_v2 : ~ ((L_ver <= j < shape1 I2 - L_ver)%Z
                       /\ (L_ver <= i < shape0 I2 - L_ver)%Z))
    by (rewrite <- HM, <- HN; exact Hout_v).
  unfold arbitrated_chroma. cbv zeta.
  repeat match goal with
  | |- context [run_filter ?X ?G ?Y (shape0 ?I) (shape1 ?I) L_hor ?r ?a ?t ?m] =>
      let s := fresh "s" in let E := fresh "E" in
      let H1 := fresh "HK" in let H2 := fresh "HT" in
      let H3 := fresh "HA" in let H4 := fresh "HB" in
      destruct (run_filter_border X G Y (shape0 I) (shape1 I) L_hor r a t m i j Hh
                  ltac:(first [exact Hout_h | exact Hout_h2]))
        as (s & E & H1 & H2 & H3 & H4);
      rewrite E; cbn [bind]
  | |- context [run_filter ?X ?G ?Y (shape1 ?I) (shape0 ?I) L_ver ?r ?a ?t ?m] =>
      let s := fresh "s" in let E := fresh "E" in
      let H1 := fresh "HK" in let H2 := fresh "HT" in
      let H3 := fresh "HA" in let H4 := fresh "HB" in
      destruct (run_filter_border X G Y (shape1 I) (shape0 I) L_ver r a t m j i Hv
                  ltac:(first [exact Hout_v | exact Hout_v2]))
        as (s & E & H1 & H2 & H3 & H4);
      rewrite E; cbn [bind]
  end.
  eexists. eexists. split; [reflexivity|]. split; [reflexivity|].
  cbn [fst snd].
  unfold arbitration, merge, X_contrast, X_contrast_hor, X_contrast_ver,
    transpose.
  rewrite !(not_covered _ _ _ _ i j Hout_h), !(not_covered _ _ _ _ j i Hout_v).
  rewrite !(not_covered _ _ _ _ i j Hout_h2), !(not_covered _ _ _ _ j i Hout_v2).
  repeat match goal with H : _ = _ ?m i j |- _ => rewrite H; clear H end.
  repeat match goal with H : _ = _ ?m j i |- _ => rewrite H; clear H end.
  split; reflexivity.
Qed.

Lemma border_chroma_ignores_the_image_witness :
  exists K1 K2,
    arbitrated_chroma (gray_image ramp3 3 3) 1 1 rho_default tau_default
      alpha_default alpha_default beta_default beta_default
      gamma_1_default gamma_2_default (uninit_with ones) = Ok K1
    /\ arbitrated_chroma (image_of step3 ramp3 zeros 3 3) 1 1 rho_default
         tau_default alpha_default alpha_default beta_default beta_default
         gamma_1_default gamma_2_default (uninit_with ones) = Ok K2
    /\ fst K1 0%Z 1%Z = fst K2 0%Z 1%Z
    /\ snd K1 0%Z 1%Z = snd K2 0%Z 1%Z.
Proof.
  apply (border_chroma_ignores_the_image (gray_image ramp3 3 3)
           (image_of step3 ramp3 zeros 3 3) 1 1 rho_default tau_default
           alpha_default alpha_default beta_default beta_default
           gamma_1_default gamma_2_default (uninit_with ones) 0 1);
    simpl; lia.
Defined.

(** X20.  When the chroma blocks that [np.empty] hands out hold zeros, for
    [0 <= L_hor, L_ver < 2^30] and [gamma_1 >= gamma_2 > 0], a pixel that
    neither pass covers comes out gray: its red and blue samples are
    replaced by its green sample, whatever they were. *)
Theorem border_turns_gray_when_blocks_hold_zeros (I_in : image)
    (L_hor L_ver : Z) (rho : list Q)
    (tau alpha_R alpha_B beta_R beta_B gamma_1 gamma_2 : Q) (u : uninit)
    (i j : Z) :
  zero_blocks u ->
  0 < gamma_2 -> gamma_2 <= gamma_1 ->
  (0 <= L_hor < 1073741824)%Z -> (0 <= L_ver < 1073741824)%Z ->
  ~ ((L_hor <= i < shape0 I_in - L_hor)%Z
     /\ (L_hor <= j < shape1 I_in - L_hor)%Z) ->
  ~ ((L_ver <= j < shape1 I_in - L_ver)%Z
     /\ (L_ver <= i < shape0 I_in - L_ver)%Z) ->
  exists I_out,
    correct_chromatic_aberration I_in L_hor L_ver rho tau alpha_R alpha_B
      beta_R beta_B gamma_1 gamma_2 u = Ok I_out
    /\ pix I_out i j 0 == pix I_in i j 1
    /\ pix I_out i j 2 == pix I_in i j 1.
Proof.
  intros (Zrh & Zbh & Zrv & Zbv) _ _ Hh Hv Hout_h Hout_v.
  rewrite correct_chromatic_aberration_body by (unfold INT_MIN, INT_MAX; lia).
  unfold arbitrated_chroma. cbv zeta.
  repeat match goal with
  | |- context [run_filter ?X ?G ?Y (shape0 ?I) (shape1 ?I) L_hor ?r ?a ?t ?m] =>
      let s := fresh "s" in let E := fresh "E" in
      let H1 := fresh "HK" in let H2 := fresh "HT" in
      destruct (run_filter_border X G Y (shape0 I) (shape1 I) L_hor r a t m i j
                  Hh Hout_h)
        as (s & E & H1 & H2 & _ & _);
      rewrite E; cbn [bind]
  | |- context [run_filter ?X ?G ?Y (shape1 ?I) (shape0 ?I) L_ver ?r ?a ?t ?m] =>
      let s := fresh "s" in let E := fresh "E" in
      let H1 := fresh "HK" in let H2 := fresh "HT" in
      destruct (run_filter_border X G Y (shape1 I) (shape0 I) L_ver r a t m j i
                  Hv Hout_v)
        as (s & E & H1 & H2 & _ & _);
      rewrite E; cbn [bind]
  end.
  eexists. split; [reflexivity|].
  cbn [pix fst snd Z.eqb Pos.eqb].
  destruct Zrh as (Zrh1 & Zrh2 & _), Zbh as (Zbh1 & Zbh2 & _),
           Zrv as (Zrv1 & Zrv2 & _), Zbv as (Zbv1 & Zbv2 & _).
  split.
  - match goal with |- ?a + _ == _ => assert (Hz : a == 0) end.
    { apply arbitration_zero; apply merge_zero; unfold transpose;
        first [rewrite HK | rewrite HT | rewrite HK1 | rewrite HT1]; auto. }
    rewrite Hz. ring.
  - match goal with |- ?a + _ == _ => assert (Hz : a == 0) end.
    { apply arbitration_zero; apply merge_zero; unfold transpose;
        first [rewrite HK0 | rewrite HT0 | rewrite HK2 | rewrite HT2]; auto. }
    rewrite Hz. ring.
Qed.

Lemma border_turns_gray_when_blocks_hold_zeros_witness :
  exists I_out,
    correct_chromatic_aberration (image_of step3 ramp3 zeros 3 3) 1 1
      rho_default tau_default alpha_default alpha_default
      beta_default beta_default gamma_1_default gamma_2_default
      (uninit_with zeros) = Ok I_out
    /\ pix I_out 1 2 0 == pix (image_of step3 ramp3 zeros 3 3) 1 2 1
    /\ pix I_out 1 2 2 == pix (image_of step3 ramp3 zeros 3 3) 1 2 1.
Proof.
  apply (border_turns_gray_when_blocks_hold_zeros
           (image_of step3 ramp3 zeros 3 3) 1 1
           rho_default tau_default alpha_default alpha_default
           beta_default beta_default gamma_1_default gamma_2_default
           (uninit_with zeros) 1 2).
  - unfold zero_blocks, zero_call_mem, uninit_with, call_mem_with,
      zero_filter_mem, zeros; simpl.
    repeat split; reflexivity.
  - reflexivity.
  - unfold Qle; simpl; lia.
  - lia.
  - lia.
  - simpl; lia.
  - simpl; lia.
Defined.

Lemma contrast_hor_pixel_L1_witness :
  contrast_hor_pixel beta_default step3 ramp3 1 1 1 == 0.
Proof.
  apply (contrast_hor_pixel_L1 beta_default step3 ramp3 1 1).
  unfold Qle; simpl; lia.
Defined.

Lemma gray_image_preserved_when_blocks_hold_zeros_witness :
  exists K_out I_out,
    arbitrated_chroma (gray_image ramp3 3 3) 1 1 rho_default tau_default
      alpha_default alpha_default beta_default beta_default
      gamma_1_default gamma_2_default (uninit_with zeros) = Ok K_out
    /\ correct_chromatic_aberration (gray_image ramp3 3 3) 1 1 rho_default
         tau_default alpha_default alpha_default beta_default beta_default
         gamma_1_default gamma_2_default (uninit_with zeros) = Ok I_out
    /\ (forall i j, fst K_out i j == 0 /\ snd K_out i j == 0)
    /\ (forall i j c, (0 <= c < 3)%Z ->
                      pix I_out i j c == pix (gray_image ramp3 3 3) i j c).
Proof.
  apply (gray_image_preserved_when_blocks_hold_zeros (gray_image ramp3 3 3)
           1 1 rho_default tau_default alpha_default alpha_default
           beta_default beta_default gamma_1_default gamma_2_default
           (uninit_with zeros)).
  - unfold gray, gray_image; simpl. intros i j. split; reflexivity.
  - unfold all_blocks_zero, all_zero_call_mem, all_zero_arb_mem,
      zero_call_mem, uninit_with, call_mem_with, zero_filter_mem,
      zero_arb_mem, zeros; simpl.
    repeat split; reflexivity.
  - simpl; lia.
  - reflexivity.
  - unfold Qle; simpl; lia.
  - lia.
  - lia.
Defined.

(** ** The vertical contrast without bias *)

Lemma Qltb_compat (a a' b b' : Q) :
  a == a' -> b == b' -> (a <? b) = (a' <? b').
Proof.
  intros Ha Hb.
  destruct (a <? b) eqn:E; [apply Qltb_lt in E | apply Qltb_ge in E];
    symmetry; [apply Qltb_lt | apply Qltb_ge]; lra.
Qed.

Lemma Qgtb_compat (a a' b b' : Q) :
  a == a' -> b == b' -> (a >? b) = (a' >? b').
Proof. intros Ha Hb. unfold Qgtb. apply Qltb_compat; assumption. Qed.

Lemma Qgeb_compat (a a' b b' : Q) :
  a == a' -> b == b' -> (a >=? b) = (a' >=? b').
Proof.
  intros Ha Hb.
  destruct (a >=? b) eqn:E; [apply Qgeb_ge in E | apply Qgeb_lt in E];
    symmetry; [apply Qgeb_ge | apply Qgeb_lt]; lra.
Qed.

Lemma loop_relation2 {S1 S2 : Type} (f : S1 -> Z -> S1) (g : S2 -> Z -> S2)
    (R : S1 -> S2 -> Prop) (l : list Z) :
  (forall s1 s2 a, R s1 s2 -> R (f s1 a) (g s2 a)) ->
  forall s1 s2, R s1 s2 -> R (fold_left f l s1) (fold_left g l s2).
Proof.
  intro Hstep. induction l as [|a l IH]; intros s1 s2 H; simpl; [exact H|].
  apply IH. apply Hstep. exact H.
Qed.

(** X24.  With [beta_X = 0] the vertical contrast loop of arbitration
    recomputes the envelope of ti_and_ca_filtering1D: the contrast it
    stores is the range [X_max - X_min] of the couple that the filter
    selects on the same plane, half-window and pixel. *)
Theorem contrast_ver_without_bias_is_envelope_range (Xt Gt : plane)
    (L i j : Z) :
  contrast_ver_pixel 0 Xt Gt L i j
  == fst (select_couple (envelope Xt L i j))
     - snd (select_couple (envelope Xt L i j)).
Proof.
  unfold contrast_ver_pixel, envelope.
  set (R := fun w1 w2 : window =>
              X_Emax w1 == X_Emax w2 /\ X_Emin w1 == X_Emin w2
              /\ X_Wmax w1 == X_Wmax w2 /\ X_Wmin w1 == X_Wmin w2).
  match goal with
  | |- (let (_, _) := select_couple (fold_left ?f ?l ?w0) in _)
       == fst (select_couple (fold_left ?g _ _)) - _ =>
      assert (HR : R (fold_left f l w0) (fold_left g l w0))
  end.
  { apply (loop_relation2 _ _ R).
    - intros w1 w2 l (H1 & H2 & H3 & H4).
      unfold R, contrast_ver_step, envelope_step.
      cbn [X_Emax X_Emin X_Wmax X_Wmin].
      repeat split.
      + rewrite (Qgtb_compat _ (Xt i (j + l + 1)%Z) _ (X_Emax w2)) by (try ring; assumption).
        destruct (Xt i (j + l + 1)%Z >? X_Emax w2); [ring | exact H1].
      + rewrite (Qltb_compat _ (Xt i (j + l + 1)%Z) _ (X_Emin w2)) by (try ring; assumption).
        destruct (Xt i (j + l + 1)%Z <? X_Emin w2); [ring | exact H2].
      + rewrite (Qgtb_compat _ (Xt i (j - L + l)%Z) _ (X_Wmax w2)) by (try ring; assumption).
        destruct (Xt i (j - L + l)%Z >? X_Wmax w2); [ring | exact H3].
      + rewrite (Qltb_compat _ (Xt i (j - L + l)%Z) _ (X_Wmin w2)) by (try ring; assumption).
        destruct (Xt i (j - L + l)%Z <? X_Wmin w2); [ring | exact H4].
    - unfold R. cbn. repeat split; reflexivity. }
  destruct HR as (H1 & H2 & H3 & H4).
  unfold select_couple.
  rewrite (Qgeb_compat _ (X_Emax (fold_left (envelope_step Xt L i j) (range 0 L)
                             {| X_Emax := Xt i j; X_Emin := Xt i j;
                                X_Wmax := Xt i j; X_Wmin := Xt i j |})
                          - X_Wmin (fold_left (envelope_step Xt L i j) (range 0 L)
                             {| X_Emax := Xt i j; X_Emin := Xt i j;
                                X_Wmax := Xt i j; X_Wmin := Xt i j |}))
             _ (X_Wmax (fold_left (envelope_step Xt L i j) (range 0 L)
                             {| X_Emax := Xt i j; X_Emin := Xt i j;
                                X_Wmax := Xt i j; X_Wmin := Xt i j |})
                - X_Emin (fold_left (envelope_step Xt L i j) (range 0 L)
                             {| X_Emax := Xt i j; X_Emin := Xt i j;
                                X_Wmax := Xt i j; X_Wmin := Xt i j |})))
    by (rewrite ?H1, ?H2, ?H3, ?H4; reflexivity).
  match goal with |- context [if ?c then _ else _] => destruct c end;
    cbn [fst snd]; rewrite ?H1, ?H2, ?H3, ?H4; reflexivity.
Qed.
